(** * Arbiters and selectors of [nmigen.lib]

    A shallow embedding of [nmigen/lib/coding.py] (PrioritySelector,
    RoundRobinSelector, RoundRobinEncoder) and [nmigen/lib/arbiter.py]
    (the ArbiterInterface family), with the properties stated about them.

    A signal value is the list of its bits, least significant first; its
    width is the length of the list.  A clocked component is a step function
    from the current register contents and the inputs of a tick to the
    outputs of that tick and the register contents of the next one. *)

From Stdlib Require Import String.
From Stdlib Require Import List Bool Arith Lia ZArith.
Import ListNotations.

Set Implicit Arguments.

(* ================================================================== *)
(** * The value algebra of the description language *)
(* ================================================================== *)

Module hdl.

(** Modelled from the spec: the bit-vector values of the surrounding
    framework ([hdl.ast], not part of the sources at hand): "fixed-width
    bit-vector values with bitwise operators".  Only the operators that
    the two library files use are modelled. *)
Definition Value := list bool.

Definition nbits (v : Value) : nat := length v.

Definition zeros (w : nat) : Value := repeat false w.

(** The [w]-bit vector whose only set bit is bit [k]; all zero when
    [k] is out of range. *)
Definition onehot (w k : nat) : Value := map (Nat.eqb k) (seq 0 w).

(** [v.bool()]: one bit, set iff some bit of [v] is set. *)
Definition bool_ (v : Value) : Value := [existsb id v].

(** A value used as a condition ([m.If(v)]): true iff nonzero. *)
Definition truthy (v : Value) : bool := existsb id v.

(** [v[i]] for an in-range integer index; out of range raises
    IndexError, here [None]. *)
Definition index (v : Value) (i : nat) : option Value :=
  option_map (fun b => [b]) (nth_error v i).

(** [v[:i]] and [v[i:]]; slice bounds are clamped to the width. *)
Definition slice_to (v : Value) (i : nat) : Value := firstn i v.
Definition slice_from (v : Value) (i : nat) : Value := skipn i v.

(** [Cat(p0, p1, ...)]: [p0] occupies the low bits. *)
Definition Cat (parts : list Value) : Value := concat parts.

(** Binary bitwise operators on unsigned operands: the result is as wide
    as the wider operand, the narrower one is zero-extended. *)
Definition bitwise (f : bool -> bool -> bool) (a b : Value) : Value :=
  map (fun i => f (nth i a false) (nth i b false))
      (seq 0 (Nat.max (nbits a) (nbits b))).

Definition and_ : Value -> Value -> Value := bitwise andb.
Definition or_ : Value -> Value -> Value := bitwise orb.

(** [~v]: same width, every bit inverted. *)
Definition not_ (v : Value) : Value := map negb v.

(** [sig.eq(v)] for a [w]-bit [sig]: [v] truncated or zero-extended to
    [w] bits. *)
Definition assign (w : nat) (v : Value) : Value :=
  map (fun i => nth i v false) (seq 0 w).

(** Integers to bit vectors and back, to read and write literals such as
    [0b0110]. *)
Definition of_Z (w : nat) (z : Z) : Value :=
  map (fun i => Z.testbit z (Z.of_nat i)) (seq 0 w).

Fixpoint to_Z (v : Value) : Z :=
  match v with
  | [] => 0%Z
  | b :: v' => (Z.b2z b + 2 * to_Z v')%Z
  end.

(** Number of set bits. *)
Definition popcount (v : Value) : nat := length (filter id v).

(** Index of the least significant set bit, if any. *)
Fixpoint lowest (v : Value) : option nat :=
  match v with
  | [] => None
  | true :: _ => Some 0
  | false :: v' => option_map S (lowest v')
  end.

(** Bit [i] of [v], zero beyond the width. *)
Definition bit (v : Value) (i : nat) : bool := nth i v false.

(** A [w]-bit vector that is all zero or has exactly one bit set. *)
Definition at_most_one_hot (w : nat) (v : Value) : Prop :=
  v = zeros w \/ exists k, k < w /\ v = onehot w k.

Definition xor_ : Value -> Value -> Value := bitwise xorb.

(** [sig[k].eq(b)] on the bits gathered so far: bit [k] replaced, the
    others kept; out of range, nothing changes. *)
Definition set_bit (v : Value) (k : nat) (b : bool) : Value :=
  map (fun j => if j =? k then b else bit v j) (seq 0 (nbits v)).

(** The value of a [w]-bit binary-coded signal assigned the integer [z]. *)
Definition wrap (w : nat) (z : Z) : Z := (z mod 2 ^ Z.of_nat w)%Z.

(** The width of [Signal(max=max(2, width))]. *)
Definition index_width (width : nat) : nat :=
  Z.to_nat (Z.log2_up (Z.max 2 (Z.of_nat width))).

(** The next bit vector of the same width in counting order; none after
    the all-ones vector. *)
Fixpoint inc (v : Value) : option Value :=
  match v with
  | [] => None
  | false :: v' => Some (true :: v')
  | true :: v' => option_map (cons false) (inc v')
  end.

End hdl.
Import hdl.

(* ================================================================== *)
(** * Python values and exceptions seen by the constructors *)
(* ================================================================== *)

Module py.

(** The members of the [RobinPolicy] enumeration.  Both library files
    declare an enumeration of this name with these members; they are
    distinct classes. *)
Inductive RobinPolicy := WITHDRAW | CE.

(** The arguments a caller can hand to a constructor. *)
Inductive value :=
| PyNone
| PyBool (b : bool)
| PyInt (z : Z)
| PyStr (s : string)
| PyCodingPolicy (p : RobinPolicy)    (* a member of coding.RobinPolicy *)
| PyArbiterPolicy (p : RobinPolicy)   (* a member of arbiter.RobinPolicy *)
| PyObject.                           (* any other instance *)

Inductive exn :=
| TypeError (msg : string)
| ValueError (msg : string).

Inductive result (A : Type) :=
| Ok (a : A)
| Raise (e : exn).
Arguments Ok {A} a.
Arguments Raise {A} e.

Definition bind {A B} (r : result A) (k : A -> result B) : result B :=
  match r with
  | Ok a => k a
  | Raise e => Raise e
  end.

Definition raises {A} (r : result A) : bool :=
  match r with Ok _ => false | Raise _ => true end.

(** [isinstance(v, int)]; [bool] is a subclass of [int]. *)
Definition as_int (v : value) : option Z :=
  match v with
  | PyInt z => Some z
  | PyBool b => Some (Z.b2z b)
  | _ => None
  end.

(** [not isinstance(v, int) or v < 1] *)
Definition not_positive_int (v : value) : bool :=
  match as_int v with
  | Some z => (z <? 1)%Z
  | None => true
  end.

(** A positive integer, as the width checks want it. *)
Definition is_positive_int (v : value) : bool := negb (not_positive_int v).

(** [isinstance(v, RobinPolicy)] in coding.py. *)
Definition is_RobinPolicy (v : value) : bool :=
  match v with
  | PyCodingPolicy _ => true
  | _ => false
  end.

(** Modelled from the spec: the constructor [Signal(shape)] of the
    framework ([hdl.ast], absent from the sources), which "supplies
    fixed-width bit-vector values": a non-negative integer shape gives a
    signal of that width, no shape gives one bit, anything else is
    refused.  The result is the width. *)
Definition Signal (shape : value) : result nat :=
  match shape with
  | PyNone => Ok 1
  | _ =>
      match as_int shape with
      | Some z =>
          if (z <? 0)%Z
          then Raise (TypeError "Width must be a non-negative integer")
          else Ok (Z.to_nat z)
      | None => Raise (TypeError "Width must be a non-negative integer")
      end
  end.

(** Modelled from the spec: [Signal(max=m)] of the framework, wide enough
    for the values [0 .. m-1]; the callers at hand pass [max(2, n)]. *)
Definition Signal_max (m : Z) : result nat :=
  Ok (Z.to_nat (Z.log2_up m)).

End py.
Import py.

Declare Scope py_scope.
Notation "x <- r ;; k" := (py.bind r (fun x => k))
  (at level 61, r at next level, right associativity) : py_scope.

(* ================================================================== *)
(** * [nmigen/lib/coding.py] *)
(* ================================================================== *)

Module coding.

Local Open Scope py_scope.

(** [_smear_lx]: exclusive left smear.
    [Cat(signal[:i].bool() for i in range(signal.nbits))] *)
Definition _smear_lx (signal : Value) : Value :=
  Cat (map (fun i => bool_ (slice_to signal i)) (seq 0 (nbits signal))).

(** ** PrioritySelector *)

Record PrioritySelector := { width : nat }.

(** [__init__]: two signals of the given width; no check of its own. *)
Definition PrioritySelector___init__ (width : value)
  : result PrioritySelector :=
  i <- Signal width ;;
  o <- Signal width ;;
  Ok {| width := i |}.

(** [elaborate]: [deny = _smear_lx(self.i)], [self.o.eq(self.i & ~deny)],
    both ports being [width] bits wide. *)
Definition PrioritySelector_o (self : PrioritySelector) (i : Value) : Value :=
  let i := assign (width self) i in
  let deny := _smear_lx i in
  assign (width self) (and_ i (not_ deny)).

(** ** RoundRobinSelector *)

Record RoundRobinSelector := { n_reqs : nat; policy : RobinPolicy }.

Definition RoundRobinSelector___init__ (n_reqs policy : value)
  : result RoundRobinSelector :=
  match policy with
  | PyCodingPolicy p =>
      if not_positive_int n_reqs
      then Raise (TypeError "n_reqs must be a positive integer")
      else
        i <- Signal n_reqs ;;
        o <- Signal n_reqs ;;
        _ <- match p with CE => Signal PyNone | WITHDRAW => Ok 0 end ;;
        Ok {| n_reqs := i; policy := p |}
  | _ => Raise (TypeError "policy must be a RobinPolicy")
  end.

(** The inputs of one tick: the request bitmap [i] and, for policy CE,
    the enable bit [en] (absent, and ignored here, for WITHDRAW). *)
Record Inputs := { i : Value; en : bool }.

(** The register [grant_prev = Signal(self.n_reqs)] resets to zero. *)
Definition reset (self : RoundRobinSelector) : Value :=
  zeros (n_reqs self).

(** [grant]: the freshly arbitrated bitmap, from
    [req_unwrapped = Cat(self.i & _smear_lx(grant_prev), self.i)],
    [psel = PrioritySelector(self.n_reqs * 2)], [psel.i.eq(req_unwrapped)],
    [grant = psel.o[:self.n_reqs] | psel.o[self.n_reqs:]]. *)
Definition grant (self : RoundRobinSelector) (i grant_prev : Value) : Value :=
  let req_unwrapped := Cat [and_ i (_smear_lx grant_prev); i] in
  let psel := {| width := n_reqs self * 2 |} in
  let psel_o := PrioritySelector_o psel req_unwrapped in
  or_ (slice_to psel_o (n_reqs self)) (slice_from psel_o (n_reqs self)).

(** [en]: [~((self.i & grant_prev).bool())] for WITHDRAW, the input
    [self.en] for CE. *)
Definition enable (self : RoundRobinSelector) (inp : Inputs)
           (grant_prev : Value) : bool :=
  match policy self with
  | WITHDRAW =>
      truthy (not_ (bool_ (and_ (assign (n_reqs self) (i inp)) grant_prev)))
  | CE => en inp
  end.

(** One tick: the output [o] of this tick and the content of
    [grant_prev] at the next tick.
    [with m.If(en): m.d.sync += grant_prev.eq(grant); m.d.comb += self.o.eq(grant)]
    [with m.Else(): m.d.comb += self.o.eq(grant_prev)] *)
Definition step (self : RoundRobinSelector) (inp : Inputs)
           (grant_prev : Value) : Value * Value :=
  let n := n_reqs self in
  let g := grant self (assign n (i inp)) grant_prev in
  if enable self inp grant_prev
  then (assign n g, assign n g)
  else (assign n grant_prev, grant_prev).

Definition out (self : RoundRobinSelector) (inp : Inputs)
           (grant_prev : Value) : Value :=
  fst (step self inp grant_prev).

Definition next (self : RoundRobinSelector) (inp : Inputs)
           (grant_prev : Value) : Value :=
  snd (step self inp grant_prev).

(** The content of [grant_prev] after the ticks [inps], from [s]. *)
Fixpoint state_after (self : RoundRobinSelector) (s : Value)
         (inps : list Inputs) : Value :=
  match inps with
  | [] => s
  | x :: xs => state_after self (next self x s) xs
  end.

(** The outputs over the ticks [inps], from [s]. *)
Fixpoint run (self : RoundRobinSelector) (s : Value)
         (inps : list Inputs) : list Value :=
  match inps with
  | [] => []
  | x :: xs => out self x s :: run self (next self x s) xs
  end.

(** For each tick of [inps], from [s]: whether a round of arbitration
    ran at that tick. *)
Fixpoint rounds (self : RoundRobinSelector) (s : Value)
         (inps : list Inputs) : list bool :=
  match inps with
  | [] => []
  | x :: xs => enable self x s :: rounds self (next self x s) xs
  end.

(** ** RoundRobinEncoder (construction only) *)

Record RoundRobinEncoder :=
  { enc_n_reqs : value; enc_policy : value; enc_has_en : bool }.

(** [max(2, n)] of Python, defined between integers. *)
Definition max2 (n : value) : result Z :=
  match as_int n with
  | Some z => Ok (Z.max 2 z)
  | None => Raise (TypeError "'>' not supported")
  end.

(** [policy == RobinPolicy.CE] *)
Definition is_CE (policy : value) : bool :=
  match policy with
  | PyCodingPolicy CE => true
  | _ => false
  end.

Definition RoundRobinEncoder___init__ (n_reqs policy : value)
  : result RoundRobinEncoder :=
  i <- Signal n_reqs ;;
  m <- max2 n_reqs ;;
  o <- Signal_max m ;;
  n <- Signal PyNone ;;
  _ <- (if is_CE policy then Signal PyNone else Ok 0) ;;
  Ok {| enc_n_reqs := n_reqs; enc_policy := policy;
        enc_has_en := is_CE policy |}.

(** [Encoder.__init__]: three signals, no check of its own. *)
Definition Encoder___init__ (width : value) : result nat :=
  i <- Signal width ;;
  m <- max2 width ;;
  o <- Signal_max m ;;
  n <- Signal PyNone ;;
  Ok i.

(** [RoundRobinEncoder.elaborate] builds
    [RoundRobinSelector(self.n_reqs, self.policy)] and
    [Encoder(self.n_reqs)]. *)
Definition RoundRobinEncoder_elaborate (self : RoundRobinEncoder)
  : result RoundRobinSelector :=
  robin <- RoundRobinSelector___init__ (enc_n_reqs self) (enc_policy self) ;;
  enc <- Encoder___init__ (enc_n_reqs self) ;;
  Ok robin.

(** ** Encoder *)

Record Encoder := { Encoder_width : nat }.

(** [elaborate]: a [Switch] on [self.i] with one [Case(1 << j)] per
    [j in range(self.width)] assigning [self.o.eq(j)], and a default case
    assigning [self.n.eq(1)].  The result is the integer on [o] and the
    bit [n]; an unassigned signal is zero. *)
Definition Encoder_elaborate (self : Encoder) (i : Value) : Z * bool :=
  let i := assign (Encoder_width self) i in
  match find (fun j => Z.eqb (to_Z i) (Z.shiftl 1 (Z.of_nat j)))
             (seq 0 (Encoder_width self)) with
  | Some j => (wrap (index_width (Encoder_width self)) (Z.of_nat j), false)
  | None => (0%Z, true)
  end.

(** ** PriorityEncoder *)

Record PriorityEncoder := { PriorityEncoder_width : nat }.

(** [elaborate]: [for j in reversed(range(self.width)):
    with m.If(self.i[j]): m.d.comb += self.o.eq(j)], the later assignment
    prevailing, then [self.n.eq(self.i == 0)]. *)
Definition PriorityEncoder_elaborate (self : PriorityEncoder) (i : Value)
  : Z * bool :=
  let i := assign (PriorityEncoder_width self) i in
  let o := fold_left
             (fun o j =>
                if bit i j
                then wrap (index_width (PriorityEncoder_width self))
                          (Z.of_nat j)
                else o)
             (rev (seq 0 (PriorityEncoder_width self))) 0%Z in
  (o, Z.eqb (to_Z i) 0).

(** ** Decoder (and PriorityDecoder, which adds nothing to it) *)

Record Decoder := { Decoder_width : nat }.

(** [elaborate]: a [Switch] on [self.i] with one [Case(j)] per
    [j in range(len(self.o))] assigning [self.o.eq(1 << j)], then
    [with m.If(self.n): m.d.comb += self.o.eq(0)]. *)
Definition Decoder_elaborate (self : Decoder) (i : Z) (n : bool) : Value :=
  let i := wrap (index_width (Decoder_width self)) i in
  let o := match find (fun j => Z.eqb i (Z.of_nat j))
                      (seq 0 (Decoder_width self)) with
           | Some j => of_Z (Decoder_width self) (Z.shiftl 1 (Z.of_nat j))
           | None => zeros (Decoder_width self)
           end in
  if n then of_Z (Decoder_width self) 0 else o.

(** ** GrayEncoder and GrayDecoder *)

Record GrayEncoder := { GrayEncoder_width : nat }.

(** [self.o.eq(self.i ^ self.i[1:])] *)
Definition GrayEncoder_elaborate (self : GrayEncoder) (i : Value) : Value :=
  let i := assign (GrayEncoder_width self) i in
  assign (GrayEncoder_width self) (xor_ i (slice_from i 1)).

Record GrayDecoder := { GrayDecoder_width : nat }.

(** [self.o[-1].eq(self.i[-1])], then
    [for i in reversed(range(self.width - 1)):
       self.o[i].eq(self.o[i + 1] ^ self.i[i])].
    At width 0 the index [-1] is out of range (IndexError): [None]. *)
Definition GrayDecoder_elaborate (self : GrayDecoder) (i : Value)
  : option Value :=
  let i := assign (GrayDecoder_width self) i in
  match GrayDecoder_width self with
  | 0 => None
  | S top =>
      let o := set_bit (zeros (GrayDecoder_width self)) top (bit i top) in
      Some (fold_left
              (fun o k => set_bit o k (xorb (bit o (k + 1)) (bit i k)))
              (rev (seq 0 (GrayDecoder_width self - 1))) o)
  end.

(** ** RoundRobinEncoder, one tick *)

(** [robin.i.eq(self.i)], [enc.i.eq(robin.o)], [self.o.eq(enc.o)],
    [self.n.eq(enc.n)] (and [robin.en.eq(self.en)] under CE), with
    [enc = Encoder(self.n_reqs)]: the index on [o], the bit [n], and the
    selector's register at the next tick. *)
Definition RoundRobinEncoder_step (robin : RoundRobinSelector)
           (inp : Inputs) (grant_prev : Value) : (Z * bool) * Value :=
  let enc := {| Encoder_width := n_reqs robin |} in
  (Encoder_elaborate enc (out robin inp grant_prev),
   next robin inp grant_prev).

End coding.

(* ================================================================== *)
(** * [nmigen/lib/arbiter.py] *)
(* ================================================================== *)

(** As the file stands, no class of this file can be instantiated: each
    constructor calls [super().__init__(self, n_req)], which hands the
    instance to [ArbiterInterface.__init__] a second time.  The
    constructors are modelled as written, and so are the helper functions
    [_smear_lx], [_priority_sel], [_rrobin_sel] and [_bitmap_mux].  The
    [elaborate] methods are not modelled: there is no instance to call
    them on, and each of them reads attributes that no constructor sets
    ([self.i], [self.o], [self.n_req], [self.max_pri]). *)

Module arbiter.

Local Open Scope py_scope.

(** ** Construction, as written *)

Record ArbiterInterface := { req_width : nat; gnt_width : nat }.

(** [ArbiterInterface.__init__(self, n_req)], called with the positional
    arguments [args] after the bound instance. *)
Definition ArbiterInterface___init__ (args : list value)
  : result ArbiterInterface :=
  match args with
  | [n_req] =>
      if not_positive_int n_req
      then Raise (TypeError "n_req must be a positive integer")
      else
        req <- Signal n_req ;;
        gnt <- Signal n_req ;;
        Ok {| req_width := req; gnt_width := gnt |}
  | _ => Raise (TypeError "__init__() takes 2 positional arguments")
  end.

(** [super().__init__(self, n_req)]: the bound method receives the
    instance and [n_req] as positional arguments. *)
Definition super___init__ (n_req : value) : result ArbiterInterface :=
  ArbiterInterface___init__ [PyObject; n_req].

Definition PriorityArbiter___init__ (n_req : value)
  : result ArbiterInterface :=
  super___init__ n_req.

Record RoundRobinArbiter := { rr_n_req : nat; rr_policy : RobinPolicy }.

Definition RoundRobinArbiter___init__ (n_req policy : value)
  : result RoundRobinArbiter :=
  base <- super___init__ n_req ;;
  match policy with
  | PyArbiterPolicy p =>
      _ <- match p with CE => Signal PyNone | WITHDRAW => Ok 0 end ;;
      Ok {| rr_n_req := req_width base; rr_policy := p |}
  | _ => Raise (TypeError "policy must be a RobinPolicy")
  end.

Record ProgPriorityArbiter := { pp_n_req : nat; pp_max_pri : nat }.

(** [max_pri=None] stands for [n_req]. *)
Definition ProgPriorityArbiter___init__ (n_req max_pri : value)
  : result ProgPriorityArbiter :=
  base <- super___init__ n_req ;;
  let max_pri := match max_pri with PyNone => n_req | _ => max_pri end in
  if not_positive_int max_pri
  then Raise (TypeError "max_pri must be a positive integer")
  else
    match as_int max_pri with
    | Some m =>
        pri <- Signal_max m ;;
        Ok {| pp_n_req := req_width base; pp_max_pri := Z.to_nat m |}
    | None => Raise (TypeError "max_pri must be a positive integer")
    end.

Record FairAmongEqualsArbiter := { fa_n_req : nat; fa_max_pri : nat }.

Definition FairAmongEqualsArbiter___init__ (n_req max_pri : value)
  : result FairAmongEqualsArbiter :=
  base <- super___init__ n_req ;;
  let max_pri := match max_pri with PyNone => n_req | _ => max_pri end in
  if not_positive_int max_pri
  then Raise (TypeError "max_pri must be a positive integer")
  else
    match as_int max_pri with
    | Some m =>
        pri <- Signal_max m ;;
        Ok {| fa_n_req := req_width base; fa_max_pri := Z.to_nat m |}
    | None => Raise (TypeError "max_pri must be a positive integer")
    end.

(** ** The helper functions *)

(** Indexing past the end raises IndexError: [None]. *)
Fixpoint mapM {A B} (f : A -> option B) (l : list A) : option (list B) :=
  match l with
  | [] => Some []
  | a :: l' =>
      match f a, mapM f l' with
      | Some b, Some bs => Some (b :: bs)
      | _, _ => None
      end
  end.

Definition obind {A B} (o : option A) (k : A -> option B) : option B :=
  match o with Some a => k a | None => None end.

(** [_smear_lx(sig)] and [_priority_sel(req)], for a signal. *)
Definition _smear_lx (sig : Value) : Value :=
  Cat (map (fun i => bool_ (slice_to sig i)) (seq 0 (nbits sig))).

Definition _priority_sel (req : Value) : Value :=
  let deny := _smear_lx req in
  and_ req (not_ deny).

(** [_rrobin_sel(req, prev_grant)].  Every call ends in an exception,
    [None] here: [_priority_sel(req_unwrap)] hands [_smear_lx] a [Cat],
    of which it reads [.nbits], and the [return] statement reads
    [grant_unwrap], a name that nothing binds (the assignment above it
    binds [grant_unwrapped]). *)
Definition _rrobin_sel (req prev_grant : Value) : option Value :=
  let req_above_prev := and_ req (_smear_lx prev_grant) in
  let req_unwrap := Cat [req_above_prev; req] in
  None.

(** [Cat((sel & Cat(data[i][j] for j in range(len(sel))).bool())
         for i in range(width))]: the method call binds tighter than [&],
    so each item is [sel & (Cat(...).bool())], as wide as [sel]. *)
Definition _bitmap_mux (sel : Value) (data : list Value) (width : nat)
  : option Value :=
  option_map Cat
    (mapM (fun i =>
             option_map (fun row => and_ sel (bool_ (Cat row)))
               (mapM (fun j => obind (nth_error data i)
                                     (fun d => index d j))
                     (seq 0 (nbits sel))))
          (seq 0 width)).

End arbiter.

(* ================================================================== *)
(** * The order of service of the rotation *)
(* ================================================================== *)

Module rotation.

(** With the previous grant [prev] (one-hot at [k], or zero), the
    rotation serves the indices [k+1, ..., n-1, 0, ..., k] in this order
    (or [0, ..., n-1] after a zero grant); [distance] is the place of
    [r] in that order, counted from 1. *)
Definition distance (n : nat) (prev : Value) (r : nat) : nat :=
  match lowest prev with
  | None => S r
  | Some k => if k <? r then r - k else n - k + r
  end.

(** The grant of a RoundRobinSelector as wide as the request vector [R],
    as a function of [R] and the previous grant ([coding.grant] does not
    read the policy). *)
Definition rotate (R prev : Value) : Value :=
  coding.grant {| coding.n_reqs := nbits R; coding.policy := CE |} R prev.

End rotation.

(* ================================================================== *)
(** * Bit-vector lemmas *)
(* ================================================================== *)

Section BitVectors.

Lemma nth_map_seq (A : Type) (f : nat -> A) (w k : nat) (d : A) :
  k < w -> nth k (map f (seq 0 w)) d = f k.
Proof.
  intros Hk.
  rewrite (nth_indep _ d (f 0)) by (rewrite length_map, length_seq; exact Hk).
  rewrite (map_nth f (seq 0 w) 0 k), seq_nth by exact Hk.
  reflexivity.
Qed.

Lemma bit_beyond (v : Value) (k : nat) : nbits v <= k -> bit v k = false.
Proof. intros H. unfold bit. apply nth_overflow. exact H. Qed.

Lemma bit_map_seq (f : nat -> bool) (w k : nat) :
  bit (map f (seq 0 w)) k = if k <? w then f k else false.
Proof.
  unfold bit. destruct (Nat.ltb_spec k w) as [H | H].
  - apply nth_map_seq; exact H.
  - apply nth_overflow. rewrite length_map, length_seq. exact H.
Qed.

Lemma bits_ext (a b : Value) :
  nbits a = nbits b -> (forall k, k < nbits a -> bit a k = bit b k) -> a = b.
Proof. intros Hl Hb. apply (nth_ext a b false false Hl Hb). Qed.

Lemma nbits_zeros w : nbits (zeros w) = w.
Proof. apply repeat_length. Qed.

Lemma bit_zeros w k : bit (zeros w) k = false.
Proof.
  unfold bit, zeros. destruct (Nat.lt_ge_cases k w) as [H | H].
  - apply nth_repeat_lt; exact H.
  - apply nth_overflow. rewrite repeat_length. exact H.
Qed.

Lemma nbits_onehot w k : nbits (onehot w k) = w.
Proof. unfold nbits, onehot. now rewrite length_map, length_seq. Qed.

Lemma bit_onehot w k j : bit (onehot w k) j = (j <? w) && (k =? j).
Proof. unfold onehot. rewrite bit_map_seq. now destruct (j <? w). Qed.

Lemma nbits_assign w v : nbits (assign w v) = w.
Proof. unfold nbits, assign. now rewrite length_map, length_seq. Qed.

Lemma bit_assign w v k : bit (assign w v) k = (k <? w) && bit v k.
Proof. unfold assign. rewrite bit_map_seq. now destruct (k <? w). Qed.

Lemma assign_id w v : nbits v = w -> assign w v = v.
Proof.
  intros H. apply bits_ext.
  - now rewrite nbits_assign.
  - intros k Hk. rewrite nbits_assign in Hk. rewrite bit_assign.
    apply Nat.ltb_lt in Hk. now rewrite Hk.
Qed.

Lemma nbits_bitwise f a b :
  nbits (bitwise f a b) = Nat.max (nbits a) (nbits b).
Proof. unfold nbits at 1, bitwise. now rewrite length_map, length_seq. Qed.

Lemma bit_bitwise f a b k :
  f false false = false ->
  bit (bitwise f a b) k = f (bit a k) (bit b k).
Proof.
  intros Hf. unfold bitwise. rewrite bit_map_seq. fold (bit a k) (bit b k).
  destruct (Nat.ltb_spec k (Nat.max (nbits a) (nbits b))) as [H | H];
    [reflexivity |].
  rewrite !bit_beyond by lia. now rewrite Hf.
Qed.

Lemma bit_and a b k : bit (and_ a b) k = bit a k && bit b k.
Proof. now apply bit_bitwise. Qed.

Lemma bit_or a b k : bit (or_ a b) k = bit a k || bit b k.
Proof. now apply bit_bitwise. Qed.

Lemma and_comm a b : and_ a b = and_ b a.
Proof.
  apply bits_ext.
  - unfold and_. rewrite !nbits_bitwise. apply Nat.max_comm.
  - intros k _. rewrite !bit_and. apply andb_comm.
Qed.

Lemma nbits_not v : nbits (not_ v) = nbits v.
Proof. apply length_map. Qed.

Lemma bit_not v k : k < nbits v -> bit (not_ v) k = negb (bit v k).
Proof.
  intros H. unfold bit, not_.
  rewrite (nth_indep _ false (negb false)) by (rewrite length_map; exact H).
  apply map_nth.
Qed.

(** Some bit is set iff [truthy]. *)
Lemma truthy_bit v : truthy v = true <-> exists k, bit v k = true.
Proof.
  unfold truthy. rewrite existsb_exists. split.
  - intros [x [Hin Hx]]. unfold id in Hx. subst x.
    destruct (In_nth v true false Hin) as [k [_ Hk]]. now exists k.
  - intros [k Hk]. exists true. split; [| reflexivity].
    destruct (Nat.lt_ge_cases k (nbits v)) as [H | H].
    + rewrite <- Hk. apply nth_In. exact H.
    + rewrite bit_beyond in Hk by exact H. discriminate.
Qed.

Lemma truthy_false_bit v : truthy v = false <-> forall k, bit v k = false.
Proof.
  split.
  - intros H k. destruct (bit v k) eqn:E; [| reflexivity].
    assert (truthy v = true) by (apply truthy_bit; now exists k).
    congruence.
  - intros H. destruct (truthy v) eqn:E; [| reflexivity].
    apply truthy_bit in E. destruct E as [k Hk]. rewrite H in Hk.
    discriminate.
Qed.

Lemma bit_firstn v n k : bit (firstn n v) k = (k <? n) && bit v k.
Proof.
  unfold bit. rewrite nth_firstn. now destruct (k <? n).
Qed.

Lemma bit_skipn v n k : bit (skipn n v) k = bit v (n + k).
Proof. unfold bit. apply nth_skipn. Qed.

(** A set bit strictly below [k]. *)
Lemma truthy_firstn v k :
  truthy (firstn k v) = true <-> exists j, j < k /\ bit v j = true.
Proof.
  rewrite truthy_bit. split.
  - intros [j Hj]. rewrite bit_firstn in Hj.
    apply andb_true_iff in Hj. destruct Hj as [H1 H2].
    apply Nat.ltb_lt in H1. now exists j.
  - intros [j [H1 H2]]. exists j. rewrite bit_firstn, H2.
    apply Nat.ltb_lt in H1. now rewrite H1.
Qed.

End BitVectors.

(* ================================================================== *)
(** * The least significant set bit, and counting set bits *)
(* ================================================================== *)

Section Lowest.

Lemma lowest_Some v k :
  lowest v = Some k ->
  bit v k = true /\ (forall j, j < k -> bit v j = false) /\ k < nbits v.
Proof.
  revert k. induction v as [| b v IH]; intros k H; simpl in H.
  - discriminate.
  - destruct b.
    + injection H as <-. split; [reflexivity | split].
      * intros j Hj. lia.
      * unfold nbits. simpl. lia.
    + destruct (lowest v) as [m |] eqn:E; simpl in H; [| discriminate].
      injection H as <-. destruct (IH m eq_refl) as [H1 [H2 H3]].
      split; [exact H1 | split].
      * intros [| j] Hj; [reflexivity | apply H2; lia].
      * unfold nbits in *. simpl. lia.
Qed.

Lemma lowest_None v : lowest v = None -> forall j, bit v j = false.
Proof.
  induction v as [| b v IH]; intros H j.
  - now destruct j.
  - simpl in H. destruct b; [discriminate |].
    destruct (lowest v) eqn:E; [discriminate |].
    destruct j as [| j]; [reflexivity | now apply IH].
Qed.

Lemma lowest_intro v k :
  bit v k = true -> (forall j, j < k -> bit v j = false) -> lowest v = Some k.
Proof.
  intros Hk Hlow. destruct (lowest v) as [m |] eqn:E.
  - destruct (lowest_Some _ E) as [H1 [H2 _]].
    destruct (Nat.lt_trichotomy m k) as [H | [H | H]].
    + rewrite Hlow in H1 by exact H. discriminate.
    + now subst.
    + rewrite H2 in Hk by exact H. discriminate.
  - rewrite (lowest_None _ E) in Hk. discriminate.
Qed.

Lemma lowest_None_intro v : (forall j, bit v j = false) -> lowest v = None.
Proof.
  intros H. destruct (lowest v) as [m |] eqn:E; [| reflexivity].
  destruct (lowest_Some _ E) as [H1 _]. rewrite H in H1. discriminate.
Qed.

Lemma lowest_zeros w : lowest (zeros w) = None.
Proof. apply lowest_None_intro. intros j. apply bit_zeros. Qed.

Lemma lowest_onehot w k : k < w -> lowest (onehot w k) = Some k.
Proof.
  intros H. apply lowest_intro.
  - rewrite bit_onehot, Nat.eqb_refl. apply Nat.ltb_lt in H. now rewrite H.
  - intros j Hj. rewrite bit_onehot.
    destruct (Nat.eqb_spec k j); [lia | apply andb_false_r].
Qed.

Lemma bit_app_l (a b : Value) k : k < nbits a -> bit (a ++ b) k = bit a k.
Proof. intros H. unfold bit. now apply app_nth1. Qed.

Lemma bit_app_r (a b : Value) k : bit (a ++ b) (nbits a + k) = bit b k.
Proof.
  unfold bit, nbits. rewrite app_nth2 by lia. f_equal. lia.
Qed.

Lemma lowest_app a b :
  lowest (a ++ b) =
  match lowest a with
  | Some k => Some k
  | None => option_map (Nat.add (nbits a)) (lowest b)
  end.
Proof.
  destruct (lowest a) as [k |] eqn:Ea.
  - destruct (lowest_Some _ Ea) as [H1 [H2 H3]]. apply lowest_intro.
    + now rewrite bit_app_l.
    + intros j Hj. rewrite bit_app_l by lia. now apply H2.
  - pose proof (lowest_None _ Ea) as Ha.
    destruct (lowest b) as [m |] eqn:Eb; simpl.
    + destruct (lowest_Some _ Eb) as [H1 [H2 H3]]. apply lowest_intro.
      * now rewrite bit_app_r.
      * intros j Hj. destruct (Nat.lt_ge_cases j (nbits a)) as [H | H].
        -- rewrite bit_app_l by exact H. apply Ha.
        -- replace j with (nbits a + (j - nbits a)) by lia.
           rewrite bit_app_r. apply H2. lia.
    + pose proof (lowest_None _ Eb) as Hb. apply lowest_None_intro.
      intros j. destruct (Nat.lt_ge_cases j (nbits a)) as [H | H].
      * rewrite bit_app_l by exact H. apply Ha.
      * replace j with (nbits a + (j - nbits a)) by lia.
        rewrite bit_app_r. apply Hb.
Qed.

Lemma popcount_zeros w : popcount (zeros w) = 0.
Proof. unfold popcount, zeros. induction w; simpl; auto. Qed.

Lemma popcount_cons b v :
  popcount (b :: v) = (if b then 1 else 0) + popcount v.
Proof. unfold popcount. now destruct b. Qed.

Lemma popcount_eqb_above k a w :
  k < a -> popcount (map (Nat.eqb k) (seq a w)) = 0.
Proof.
  revert a. induction w as [| w IH]; intros a H; [reflexivity |].
  simpl. rewrite popcount_cons, IH by lia.
  destruct (Nat.eqb_spec k a); [lia | reflexivity].
Qed.

Lemma popcount_eqb k a w : popcount (map (Nat.eqb k) (seq a w)) <= 1.
Proof.
  revert a. induction w as [| w IH]; intros a; [simpl; auto |].
  simpl. rewrite popcount_cons. destruct (Nat.eqb_spec k a) as [-> | Hne].
  - rewrite popcount_eqb_above by lia. auto.
  - apply IH.
Qed.

Lemma popcount_onehot w k : popcount (onehot w k) <= 1.
Proof. apply popcount_eqb. Qed.

Lemma popcount_eqb_in k a w :
  a <= k < a + w -> popcount (map (Nat.eqb k) (seq a w)) = 1.
Proof.
  revert a. induction w as [| w IH]; intros a H; [lia |].
  simpl. rewrite popcount_cons. destruct (Nat.eqb_spec k a) as [-> | Hne].
  - rewrite popcount_eqb_above by lia. reflexivity.
  - rewrite IH by lia. reflexivity.
Qed.

Lemma popcount_onehot_in w k : k < w -> popcount (onehot w k) = 1.
Proof. intros H. apply popcount_eqb_in. lia. Qed.


Lemma at_most_one_hot_nbits w v : at_most_one_hot w v -> nbits v = w.
Proof.
  intros [-> | [k [_ ->]]]; [apply nbits_zeros | apply nbits_onehot].
Qed.

Lemma onehot_out_of_range w k : w <= k -> onehot w k = zeros w.
Proof.
  intros H. apply bits_ext.
  - now rewrite nbits_onehot, nbits_zeros.
  - intros j Hj. rewrite nbits_onehot in Hj.
    rewrite bit_onehot, bit_zeros.
    destruct (Nat.eqb_spec k j); [lia | apply andb_false_r].
Qed.

End Lowest.

(* ================================================================== *)
(** * The exclusive left smear and the priority selection *)
(* ================================================================== *)

Section PrioritySelect.

Lemma concat_singletons (A B : Type) (f : A -> B) (l : list A) :
  concat (map (fun x => [f x]) l) = map f l.
Proof. induction l as [| a l IH]; simpl; [| rewrite IH]; reflexivity. Qed.

Lemma smear_eq v :
  coding._smear_lx v = map (fun k => truthy (firstn k v)) (seq 0 (nbits v)).
Proof.
  unfold coding._smear_lx, Cat, bool_, slice_to, truthy.
  apply concat_singletons.
Qed.

Lemma arbiter_smear_eq v : arbiter._smear_lx v = coding._smear_lx v.
Proof. reflexivity. Qed.

Lemma nbits_smear v : nbits (coding._smear_lx v) = nbits v.
Proof. rewrite smear_eq. unfold nbits at 1. now rewrite length_map, length_seq. Qed.

Lemma bit_smear v k :
  bit (coding._smear_lx v) k = (k <? nbits v) && truthy (firstn k v).
Proof. rewrite smear_eq, bit_map_seq. now destruct (k <? nbits v). Qed.

(** The smear of a one-hot vector is set exactly above its set bit. *)
Lemma bit_smear_onehot w m k :
  m < w -> bit (coding._smear_lx (onehot w m)) k = (k <? w) && (m <? k).
Proof.
  intros Hm. rewrite bit_smear, nbits_onehot. f_equal.
  destruct (Nat.ltb_spec m k) as [H | H].
  - apply truthy_firstn. exists m. split; [exact H |].
    rewrite bit_onehot, Nat.eqb_refl. apply Nat.ltb_lt in Hm. now rewrite Hm.
  - apply truthy_false_bit. intros j. rewrite bit_firstn, bit_onehot.
    destruct (Nat.ltb_spec j k); [| reflexivity].
    destruct (Nat.eqb_spec m j); [lia |]. now rewrite andb_false_r.
Qed.

Lemma bit_smear_zeros w k : bit (coding._smear_lx (zeros w)) k = false.
Proof.
  rewrite bit_smear.
  assert (E : truthy (firstn k (zeros w)) = false).
  { apply truthy_false_bit. intros j. rewrite bit_firstn, bit_zeros.
    apply andb_false_r. }
  rewrite E. apply andb_false_r.
Qed.

Lemma nbits_priority_sel v : nbits (arbiter._priority_sel v) = nbits v.
Proof.
  unfold arbiter._priority_sel, and_. rewrite nbits_bitwise, nbits_not.
  rewrite arbiter_smear_eq, nbits_smear. apply Nat.max_id.
Qed.

Lemma bit_priority_sel v k :
  bit (arbiter._priority_sel v) k = bit v k && negb (truthy (firstn k v)).
Proof.
  unfold arbiter._priority_sel. rewrite bit_and, arbiter_smear_eq.
  destruct (Nat.lt_ge_cases k (nbits v)) as [H | H].
  - rewrite bit_not by (now rewrite nbits_smear).
    rewrite bit_smear. apply Nat.ltb_lt in H. now rewrite H.
  - now rewrite (bit_beyond v H).
Qed.

(** The priority selection is one-hot at the lowest set bit, or zero. *)
Lemma priority_sel_lowest v :
  arbiter._priority_sel v =
  match lowest v with
  | Some k => onehot (nbits v) k
  | None => zeros (nbits v)
  end.
Proof.
  apply bits_ext.
  - rewrite nbits_priority_sel.
    destruct (lowest v); [now rewrite nbits_onehot | now rewrite nbits_zeros].
  - intros k Hk. rewrite nbits_priority_sel in Hk.
    rewrite bit_priority_sel. destruct (lowest v) as [m |] eqn:E.
    + destruct (lowest_Some _ E) as [H1 [H2 H3]].
      rewrite bit_onehot. apply Nat.ltb_lt in Hk. rewrite Hk. simpl.
      destruct (Nat.lt_trichotomy k m) as [H | [H | H]].
      * rewrite (H2 _ H). destruct (Nat.eqb_spec m k); [lia | reflexivity].
      * subst k. rewrite H1, Nat.eqb_refl.
        assert (Ef : truthy (firstn m v) = false).
        { apply truthy_false_bit. intros j. rewrite bit_firstn.
          destruct (Nat.ltb_spec j m); [now apply H2 | reflexivity]. }
        now rewrite Ef.
      * assert (Ef : truthy (firstn k v) = true).
        { apply truthy_firstn. now exists m. }
        rewrite Ef, andb_false_r.
        destruct (Nat.eqb_spec m k); [lia | reflexivity].
    + rewrite (lowest_None _ E), bit_zeros. reflexivity.
Qed.

Lemma priority_sel_at_most_one_hot v :
  at_most_one_hot (nbits v) (arbiter._priority_sel v).
Proof.
  rewrite priority_sel_lowest. destruct (lowest v) as [m |] eqn:E.
  - right. exists m. split; [| reflexivity].
    now destruct (lowest_Some _ E) as [_ [_ H]].
  - now left.
Qed.

Lemma PrioritySelector_o_eq self i :
  coding.PrioritySelector_o self i =
  arbiter._priority_sel (assign (coding.width self) i).
Proof.
  unfold coding.PrioritySelector_o. apply assign_id.
  fold (arbiter._smear_lx (assign (coding.width self) i)).
  fold (arbiter._priority_sel (assign (coding.width self) i)).
  now rewrite nbits_priority_sel, nbits_assign.
Qed.

Lemma PrioritySelector_o_at_most_one_hot self i :
  at_most_one_hot (coding.width self) (coding.PrioritySelector_o self i).
Proof.
  rewrite PrioritySelector_o_eq.
  pose proof (priority_sel_at_most_one_hot (assign (coding.width self) i)) as H.
  now rewrite nbits_assign in H.
Qed.

End PrioritySelect.

(* ================================================================== *)
(** * The rotation *)
(* ================================================================== *)

Section Rotation.

(** Folding a one-hot vector of twice the width back onto the width. *)
Lemma fold_onehot n L k :
  k < L -> n + n <= L -> L <= n + n ->
  or_ (slice_to (onehot L k) n) (slice_from (onehot L k) n) =
  onehot n (if k <? n then k else k - n).
Proof.
  intros Hk H1 H2. unfold slice_to, slice_from. apply bits_ext.
  - unfold or_. rewrite nbits_bitwise, nbits_onehot. unfold nbits.
    rewrite length_firstn, length_skipn. fold (nbits (onehot L k)).
    rewrite nbits_onehot. lia.
  - intros j _. rewrite bit_or, bit_firstn, bit_skipn, !bit_onehot.
    destruct (Nat.ltb_spec j n) as [Hj | Hj]; simpl.
    + destruct (Nat.ltb_spec k n) as [Hkn | Hkn].
      * destruct (Nat.ltb_spec j L); [| lia]. simpl.
        destruct (Nat.eqb_spec k j); simpl; [reflexivity |].
        destruct (Nat.eqb_spec k (n + j)); [lia |]. apply andb_false_r.
      * destruct (Nat.eqb_spec k j); [lia |]. rewrite andb_false_r. simpl.
        destruct (Nat.ltb_spec (n + j) L); [| lia]. simpl.
        destruct (Nat.eqb_spec k (n + j)), (Nat.eqb_spec (k - n) j);
          try reflexivity; lia.
    + destruct (Nat.ltb_spec (n + j) L); [lia | reflexivity].
Qed.

Lemma fold_zeros n L :
  n + n <= L -> L <= n + n ->
  or_ (slice_to (zeros L) n) (slice_from (zeros L) n) = zeros n.
Proof.
  intros H1 H2. unfold slice_to, slice_from. apply bits_ext.
  - unfold or_. rewrite nbits_bitwise, nbits_zeros. unfold nbits.
    rewrite length_firstn, length_skipn. fold (nbits (zeros L)).
    rewrite nbits_zeros. lia.
  - intros j _. rewrite bit_or, bit_firstn, bit_skipn, !bit_zeros.
    now rewrite andb_false_r.
Qed.

(** Folding any one-hot-or-zero vector of twice the width. *)
Lemma fold_at_most_one_hot n v :
  at_most_one_hot (n + n) v ->
  at_most_one_hot n (or_ (slice_to v n) (slice_from v n)).
Proof.
  intros [-> | [k [Hk ->]]].
  - left. now apply fold_zeros.
  - right. exists (if k <? n then k else k - n). split.
    + destruct (Nat.ltb_spec k n); lia.
    + now apply fold_onehot.
Qed.

Lemma nbits_above req prev :
  nbits prev = nbits req ->
  nbits (and_ req (coding._smear_lx prev)) = nbits req.
Proof.
  intros H. unfold and_. rewrite nbits_bitwise, nbits_smear, H.
  apply Nat.max_id.
Qed.

(** The rotation, in terms of the lowest set bits of the requests above
    the previous grant and of all the requests. *)
Lemma rrobin_sel_lowest req prev :
  nbits prev = nbits req ->
  rotation.rotate req prev =
  match lowest (and_ req (coding._smear_lx prev)) with
  | Some k => onehot (nbits req) k
  | None =>
      match lowest req with
      | Some k => onehot (nbits req) k
      | None => zeros (nbits req)
      end
  end.
Proof.
  intros Hw. unfold rotation.rotate, coding.grant.
  rewrite PrioritySelector_o_eq. simpl coding.width. simpl coding.n_reqs.
  set (A := and_ req (coding._smear_lx prev)).
  assert (HA : nbits A = nbits req) by now apply nbits_above.
  unfold Cat. simpl concat. rewrite app_nil_r.
  assert (HL : nbits (A ++ req) = nbits req + nbits req).
  { unfold nbits in *. rewrite length_app. lia. }
  rewrite assign_id by (rewrite HL; lia).
  rewrite priority_sel_lowest, lowest_app, HL.
  destruct (lowest A) as [k |] eqn:EA.
  - destruct (lowest_Some _ EA) as [_ [_ Hk]].
    rewrite fold_onehot by lia.
    destruct (Nat.ltb_spec k (nbits req)); [reflexivity | lia].
  - destruct (lowest req) as [m |] eqn:ER; simpl.
    + destruct (lowest_Some _ ER) as [_ [_ Hm]].
      rewrite fold_onehot by lia. rewrite HA.
      destruct (Nat.ltb_spec (nbits req + m) (nbits req)); [lia |].
      f_equal. lia.
    + apply fold_zeros; lia.
Qed.

Lemma rrobin_sel_at_most_one_hot req prev :
  nbits prev = nbits req ->
  at_most_one_hot (nbits req) (rotation.rotate req prev).
Proof.
  intros Hw. rewrite rrobin_sel_lowest by exact Hw.
  destruct (lowest _) as [k |] eqn:EA.
  - right. exists k. split; [| reflexivity].
    destruct (lowest_Some _ EA) as [_ [_ Hk]].
    now rewrite nbits_above in Hk.
  - destruct (lowest req) as [m |] eqn:ER.
    + right. exists m. split; [| reflexivity].
      now destruct (lowest_Some _ ER) as [_ [_ Hm]].
    + now left.
Qed.

(** The selector's [grant] is that function of the request vector and
    the previous grant. *)
Lemma grant_rrobin_sel self i prev :
  nbits i = coding.n_reqs self -> nbits prev = coding.n_reqs self ->
  coding.grant self i prev = rotation.rotate i prev.
Proof.
  intros Hi _. unfold rotation.rotate, coding.grant. simpl coding.n_reqs.
  now rewrite Hi.
Qed.

(** Whatever the widths of its inputs, [grant] is one-hot-or-zero. *)
Lemma grant_at_most_one_hot self i prev :
  at_most_one_hot (coding.n_reqs self) (coding.grant self i prev).
Proof.
  unfold coding.grant. apply fold_at_most_one_hot.
  replace (coding.n_reqs self + coding.n_reqs self)
    with (coding.width {| coding.width := coding.n_reqs self * 2 |})
    by (simpl; lia).
  apply PrioritySelector_o_at_most_one_hot.
Qed.

End Rotation.

(* ================================================================== *)
(** * RoundRobinSelector: one tick *)
(* ================================================================== *)

Section SelectorTick.

Variable self : coding.RoundRobinSelector.
Let n := coding.n_reqs self.

Lemma truthy_not_bool v : truthy (not_ (bool_ v)) = negb (truthy v).
Proof. unfold truthy, not_, bool_. simpl. apply orb_false_r. Qed.

Lemma assign_assign w v : assign w (assign w v) = assign w v.
Proof. apply assign_id. apply nbits_assign. Qed.

Lemma assign_grant i prev :
  assign n (coding.grant self i prev) = coding.grant self i prev.
Proof.
  apply assign_id. apply at_most_one_hot_nbits with (w := n).
  apply grant_at_most_one_hot.
Qed.

(** The step, with the port assignments resolved. *)
Lemma step_eq inp prev :
  coding.step self inp prev =
  let g := coding.grant self (assign n (coding.i inp)) prev in
  if coding.enable self inp prev then (g, g) else (assign n prev, prev).
Proof.
  unfold coding.step. fold n. rewrite assign_grant. reflexivity.
Qed.

Lemma next_at_most_one_hot inp prev :
  at_most_one_hot n prev -> at_most_one_hot n (coding.next self inp prev).
Proof.
  intros H. unfold coding.next. rewrite step_eq. simpl.
  destruct (coding.enable self inp prev); simpl;
    [apply grant_at_most_one_hot | exact H].
Qed.

Lemma out_at_most_one_hot inp prev :
  at_most_one_hot n prev -> at_most_one_hot n (coding.out self inp prev).
Proof.
  intros H. unfold coding.out. rewrite step_eq. simpl.
  destruct (coding.enable self inp prev); simpl.
  - apply grant_at_most_one_hot.
  - rewrite assign_id; [exact H | now apply at_most_one_hot_nbits].
Qed.


Lemma state_after_at_most_one_hot inps s :
  at_most_one_hot n s -> at_most_one_hot n (coding.state_after self s inps).
Proof.
  revert s. induction inps as [| x xs IH]; intros s H; simpl; [exact H |].
  apply IH. now apply next_at_most_one_hot.
Qed.


(** ** The fresh grant, case by case *)

Lemma bit_in_range (R : Value) m : bit R m = true -> m < nbits R.
Proof.
  intros H. destruct (Nat.lt_ge_cases m (nbits R)) as [Hm | Hm];
    [exact Hm |].
  rewrite bit_beyond in H by exact Hm. discriminate.
Qed.

Lemma rrobin_above (R : Value) k m :
  k < nbits R -> k < m -> bit R m = true ->
  (forall j, k < j < m -> bit R j = false) ->
  rotation.rotate R (onehot (nbits R) k) = onehot (nbits R) m.
Proof.
  intros Hk Hkm Hm Hbetween. pose proof (bit_in_range _ _ Hm) as Hmn.
  rewrite rrobin_sel_lowest by apply nbits_onehot.
  rewrite (@lowest_intro _ m); [reflexivity | |].
  - rewrite bit_and, Hm, bit_smear_onehot by exact Hk.
    apply Nat.ltb_lt in Hmn, Hkm. now rewrite Hmn, Hkm.
  - intros j Hj. rewrite bit_and, bit_smear_onehot by exact Hk.
    destruct (Nat.ltb_spec k j) as [H | H].
    + rewrite Hbetween by lia. reflexivity.
    + now rewrite !andb_false_r.
Qed.

Lemma rrobin_wrap (R : Value) k m :
  k < nbits R -> (forall j, k < j -> bit R j = false) ->
  bit R m = true -> (forall j, j < m -> bit R j = false) ->
  rotation.rotate R (onehot (nbits R) k) = onehot (nbits R) m.
Proof.
  intros Hk Habove Hm Hlow.
  rewrite rrobin_sel_lowest by apply nbits_onehot.
  rewrite lowest_None_intro.
  - now rewrite (lowest_intro _ Hm Hlow).
  - intros j. rewrite bit_and, bit_smear_onehot by exact Hk.
    destruct (Nat.ltb_spec k j) as [H | H].
    + now rewrite Habove.
    + now rewrite !andb_false_r.
Qed.

Lemma rrobin_fresh (R : Value) :
  rotation.rotate R (zeros (nbits R)) = arbiter._priority_sel R.
Proof.
  rewrite rrobin_sel_lowest by apply nbits_zeros.
  rewrite lowest_None_intro.
  - now rewrite priority_sel_lowest.
  - intros j. rewrite bit_and, bit_smear_zeros. apply andb_false_r.
Qed.

Lemma rrobin_idle w prev :
  nbits prev = w -> rotation.rotate (zeros w) prev = zeros w.
Proof.
  intros Hp. rewrite rrobin_sel_lowest by now rewrite nbits_zeros.
  rewrite nbits_zeros, lowest_zeros, lowest_None_intro; [reflexivity |].
  intros j. rewrite bit_and, bit_zeros. reflexivity.
Qed.

Lemma zero_or_lowest (R : Value) :
  R = zeros (nbits R) \/
  exists m, m < nbits R /\ bit R m = true /\
            (forall j, j < m -> bit R j = false).
Proof.
  destruct (lowest R) as [m |] eqn:E.
  - right. exists m. destruct (lowest_Some _ E) as [H1 [H2 H3]]. auto.
  - left. apply bits_ext; [now rewrite nbits_zeros |].
    intros k _. now rewrite (lowest_None _ E), bit_zeros.
Qed.

End SelectorTick.

(* ================================================================== *)
(** * The stated properties *)
(* ================================================================== *)



(** C2.  For every width W and every W-bit input R, the output O of
    PrioritySelector is W bits wide; it is zero when R is zero; otherwise
    it has exactly one bit set, at the lowest index whose bit is set in R;
    and bit i of O is R[i] AND NOT OR(R[0..i-1]), a function of the input
    of the same tick alone. *)
Theorem C2_PrioritySelector_lowest_set_bit
        (self : coding.PrioritySelector) (R : Value) :
  nbits R = coding.width self ->
  let W := coding.width self in
  let O := coding.PrioritySelector_o self R in
  nbits O = W /\
  (R = zeros W -> O = zeros W) /\
  (R <> zeros W ->
   exists k, k < W /\ bit R k = true /\ (forall j, j < k -> bit R j = false) /\
             O = onehot W k /\ popcount O = 1) /\
  (forall k, bit R k = true -> (forall j, j < k -> bit R j = false) ->
             O = onehot W k) /\
  (forall k, k < W -> bit O k = bit R k && negb (truthy (slice_to R k))).
Proof.
  intros HR W O. subst W O. rewrite PrioritySelector_o_eq.
  rewrite assign_id by exact HR.
  assert (Hbits : forall k, k < coding.width self ->
            bit (arbiter._priority_sel R) k =
            bit R k && negb (truthy (slice_to R k))).
  { intros k _. apply bit_priority_sel. }
  revert Hbits. rewrite priority_sel_lowest, HR. intros Hbits.
  split; [| split; [| split; [| split]]]; [| | | | exact Hbits].
  - destruct (lowest R); [apply nbits_onehot | apply nbits_zeros].
  - intros ->. now rewrite lowest_zeros.
  - intros Hnz. destruct (zero_or_lowest R) as [Hz | [m [Hm [Hb Hlow]]]].
    + rewrite HR in Hz. contradiction.
    + exists m. rewrite (lowest_intro _ Hb Hlow). rewrite HR in Hm.
      repeat split; auto. now apply popcount_onehot_in.
  - intros k Hb Hlow. now rewrite (lowest_intro _ Hb Hlow).
Qed.

(** C2 at width 4 and R = 0b0110: the output is 0b0010. *)
Lemma C2_PrioritySelector_witness :
  let self := {| coding.width := 4 |} in
  nbits (of_Z 4 6) = coding.width self /\
  coding.PrioritySelector_o self (of_Z 4 6) = of_Z 4 2.
Proof.
  split; [reflexivity |].
  destruct (@C2_PrioritySelector_lowest_set_bit
              {| coding.width := 4 |} (of_Z 4 6) eq_refl)
    as [_ [_ [_ [H _]]]].
  apply (H 1); [reflexivity |].
  intros [| j] Hj; [reflexivity | lia].
Defined.

(** C3.  On a tick on which RoundRobinSelector runs a round of
    arbitration, with lastGrant one-hot at index k or all zero as it is in
    every reachable state, the grant is: one-hot at the lowest set request
    index strictly above k when there is one; otherwise (no request above
    k, or lastGrant all zero as at reset) one-hot at the lowest set bit of
    the whole request vector; and zero when the request vector is zero. *)
Theorem C3_RoundRobinSelector_fresh_grant
        (self : coding.RoundRobinSelector) (inp : coding.Inputs)
        (prev : Value) :
  nbits (coding.i inp) = coding.n_reqs self ->
  at_most_one_hot (coding.n_reqs self) prev ->
  coding.enable self inp prev = true ->
  let n := coding.n_reqs self in
  let R := coding.i inp in
  let O := coding.out self inp prev in
  (forall k m, prev = onehot n k -> k < n ->
               k < m -> bit R m = true ->
               (forall j, k < j < m -> bit R j = false) ->
               O = onehot n m) /\
  (forall k m, prev = onehot n k -> k < n ->
               (forall j, k < j -> bit R j = false) ->
               bit R m = true -> (forall j, j < m -> bit R j = false) ->
               O = onehot n m) /\
  (forall m, prev = zeros n ->
             bit R m = true -> (forall j, j < m -> bit R j = false) ->
             O = onehot n m) /\
  (R = zeros n -> O = zeros n).
Proof.
  intros HR Hprev Hen n R O.
  assert (HO : O = rotation.rotate R prev).
  { subst O. unfold coding.out. rewrite step_eq, Hen. simpl.
    rewrite assign_id by exact HR.
    apply grant_rrobin_sel; [exact HR | now apply at_most_one_hot_nbits]. }
  rewrite HO. clear HO O Hen. fold R in HR. fold n in HR, Hprev.
  split; [| split; [| split]].
  - intros k m -> Hk Hkm Hm Hb. rewrite <- HR. apply rrobin_above; auto.
    now rewrite HR.
  - intros k m -> Hk Habove Hm Hlow. rewrite <- HR.
    apply rrobin_wrap; auto. now rewrite HR.
  - intros m -> Hm Hlow. rewrite <- HR, rrobin_fresh, priority_sel_lowest.
    now rewrite (lowest_intro _ Hm Hlow).
  - intros HR0. rewrite HR0. apply rrobin_idle.
    now apply at_most_one_hot_nbits.
Qed.

(** C3 at width 4 under CE: with lastGrant at index 1 and requests 0b1011,
    the grant goes to index 3, the lowest request above index 1. *)
Lemma C3_RoundRobinSelector_witness :
  let self := {| coding.n_reqs := 4; coding.policy := CE |} in
  let inp := {| coding.i := of_Z 4 11; coding.en := true |} in
  nbits (coding.i inp) = 4 /\ at_most_one_hot 4 (onehot 4 1) /\
  coding.enable self inp (onehot 4 1) = true /\
  coding.out self inp (onehot 4 1) = onehot 4 3.
Proof.
  assert (H1 : at_most_one_hot 4 (onehot 4 1)).
  { right. exists 1. split; [lia | reflexivity]. }
  split; [reflexivity | split; [exact H1 | split; [reflexivity |]]].
  destruct (@C3_RoundRobinSelector_fresh_grant
              {| coding.n_reqs := 4; coding.policy := CE |}
              {| coding.i := of_Z 4 11; coding.en := true |}
              (onehot 4 1) eq_refl H1 eq_refl) as [H _].
  apply (H 1 3); [reflexivity | simpl; lia | lia | reflexivity |].
  intros j Hj. assert (j = 2) as -> by lia. reflexivity.
Defined.

(** C4.  RoundRobinSelector with policy WITHDRAW, at a tick with an n-bit
    request vector and an n-bit lastGrant: when lastGrant AND the request
    vector is nonzero, the output is lastGrant and lastGrant is unchanged
    at the next tick; when it is zero, the output is the freshly computed
    grant and that grant is the next lastGrant.  That fresh grant, for a
    one-hot-or-zero lastGrant, is one-hot at the lowest request above the
    index in lastGrant if there is one, otherwise at the lowest request of
    all, and zero without a request.  At width 2 from reset, the requests
    0b01, 0b11, 0b10, 0b00 give the grants 0b01, 0b01, 0b10, 0b00, and the
    requests 0b11 alone give the grant 0b01. *)
Theorem C4_WITHDRAW_hold_or_advance :
  (forall (self : coding.RoundRobinSelector) (inp : coding.Inputs)
          (prev : Value),
      coding.policy self = WITHDRAW ->
      nbits (coding.i inp) = coding.n_reqs self ->
      nbits prev = coding.n_reqs self ->
      (truthy (and_ prev (coding.i inp)) = true ->
       coding.out self inp prev = prev /\ coding.next self inp prev = prev) /\
      (truthy (and_ prev (coding.i inp)) = false ->
       coding.out self inp prev = coding.grant self (coding.i inp) prev /\
       coding.next self inp prev = coding.grant self (coding.i inp) prev)) /\
  (forall (self : coding.RoundRobinSelector) (inp : coding.Inputs)
          (prev : Value),
      coding.policy self = WITHDRAW ->
      nbits (coding.i inp) = coding.n_reqs self ->
      at_most_one_hot (coding.n_reqs self) prev ->
      truthy (and_ prev (coding.i inp)) = false ->
      let n := coding.n_reqs self in
      let R := coding.i inp in
      let O := coding.out self inp prev in
      coding.next self inp prev = O /\
      (forall k m, prev = onehot n k -> k < n ->
                   k < m -> bit R m = true ->
                   (forall j, k < j < m -> bit R j = false) ->
                   O = onehot n m) /\
      (forall k m, prev = onehot n k -> k < n ->
                   (forall j, k < j -> bit R j = false) ->
                   bit R m = true -> (forall j, j < m -> bit R j = false) ->
                   O = onehot n m) /\
      (forall m, prev = zeros n ->
                 bit R m = true -> (forall j, j < m -> bit R j = false) ->
                 O = onehot n m) /\
      (R = zeros n -> O = zeros n)) /\
  (forall e1 e2 e3 e4 : bool,
      let self := {| coding.n_reqs := 2; coding.policy := WITHDRAW |} in
      coding.run self (coding.reset self)
                 [ {| coding.i := of_Z 2 1; coding.en := e1 |};
                   {| coding.i := of_Z 2 3; coding.en := e2 |};
                   {| coding.i := of_Z 2 2; coding.en := e3 |};
                   {| coding.i := of_Z 2 0; coding.en := e4 |} ]
      = [of_Z 2 1; of_Z 2 1; of_Z 2 2; of_Z 2 0]) /\
  (forall e : bool,
      let self := {| coding.n_reqs := 2; coding.policy := WITHDRAW |} in
      coding.run self (coding.reset self)
                 [ {| coding.i := of_Z 2 3; coding.en := e |} ]
      = [of_Z 2 1]).
Proof.
  assert (Hen : forall (self : coding.RoundRobinSelector) inp prev,
             coding.policy self = WITHDRAW ->
             nbits (coding.i inp) = coding.n_reqs self ->
             coding.enable self inp prev
             = negb (truthy (and_ prev (coding.i inp)))).
  { intros self inp prev Hpol HR. unfold coding.enable.
    rewrite Hpol, truthy_not_bool.
    rewrite assign_id by exact HR. now rewrite and_comm. }
  split; [| split; [| split]].
  - intros self inp prev Hpol HR Hp.
    unfold coding.out, coding.next. rewrite step_eq, Hen by assumption.
    rewrite !assign_id by assumption.
    split; intros ->; simpl; split; reflexivity.
  - intros self inp prev Hpol HR Hprev Hheld n R O.
    pose proof (at_most_one_hot_nbits Hprev) as Hp.
    assert (HO : O = rotation.rotate R prev /\
                 coding.next self inp prev = rotation.rotate R prev).
    { subst O. unfold coding.out, coding.next.
      rewrite step_eq, Hen, Hheld by assumption. simpl.
      rewrite assign_id by exact HR.
      split; now apply grant_rrobin_sel. }
    destruct HO as [-> ->]. fold R in HR. fold n in HR, Hprev, Hp.
    split; [reflexivity | split; [| split; [| split]]].
    + intros k m -> Hk Hkm Hm Hb. rewrite <- HR. apply rrobin_above; auto.
      now rewrite HR.
    + intros k m -> Hk Habove Hm Hlow. rewrite <- HR.
      apply rrobin_wrap; auto. now rewrite HR.
    + intros m -> Hm Hlow. rewrite <- HR, rrobin_fresh, priority_sel_lowest.
      now rewrite (lowest_intro _ Hm Hlow).
    + intros HR0. rewrite HR0. now apply rrobin_idle.
  - intros e1 e2 e3 e4. reflexivity.
  - intros e. reflexivity.
Qed.

(** C4 at width 3: with lastGrant 0b001 and requests 0b110 (requester 0
    has withdrawn, requesters 1 and 2 both ask) the grant goes to
    requester 1, the lowest one above index 0. *)
Lemma C4_WITHDRAW_witness :
  let self := {| coding.n_reqs := 3; coding.policy := WITHDRAW |} in
  let inp := {| coding.i := of_Z 3 6; coding.en := false |} in
  at_most_one_hot 3 (onehot 3 0) /\
  truthy (and_ (onehot 3 0) (coding.i inp)) = false /\
  coding.out self inp (onehot 3 0) = onehot 3 1.
Proof.
  assert (H1 : at_most_one_hot 3 (onehot 3 0)).
  { right. exists 0. split; [lia | reflexivity]. }
  split; [exact H1 | split; [reflexivity |]].
  destruct C4_WITHDRAW_hold_or_advance as [_ [H _]].
  destruct (H {| coding.n_reqs := 3; coding.policy := WITHDRAW |}
              {| coding.i := of_Z 3 6; coding.en := false |}
              (onehot 3 0) eq_refl eq_refl H1 eq_refl) as [_ [Habove _]].
  apply (Habove 0 1); [reflexivity | simpl; lia | lia | reflexivity |].
  intros j Hj. lia.
Defined.

(** C5, as stated, fails in its last clause: the output changes on the
    very tick on which enable is asserted, whatever enable was at the tick
    before.  At width 2 from reset with request 0b01 held, enable low at
    tick 0 and high at tick 1, the grant is 0b00 at tick 0 and 0b01 at
    tick 1. *)
Lemma C5_grant_changes_on_enabled_tick :
  let self := {| coding.n_reqs := 2; coding.policy := CE |} in
  let x := {| coding.i := of_Z 2 1; coding.en := false |} in
  let y := {| coding.i := of_Z 2 1; coding.en := true |} in
  coding.en x = false /\
  coding.run self (coding.reset self) [x; y] = [of_Z 2 0; of_Z 2 1] /\
  nth 1 (coding.run self (coding.reset self) [x; y]) []
  <> nth 0 (coding.run self (coding.reset self) [x; y]) [].
Proof.
  repeat split. simpl. discriminate.
Qed.

(** C5, amended.  RoundRobinSelector with policy CE: on a tick where
    enable is deasserted the output is the retained lastGrant and
    lastGrant is the same at the next tick; over any stretch of ticks with
    enable deasserted every output is that lastGrant, whatever the
    requests; the output differs from the output of the tick before only
    on a tick where enable is asserted; and lastGrant changes only across
    a tick where enable is asserted. *)
Theorem C5_CE_disabled_tick_holds (self : coding.RoundRobinSelector) :
  coding.policy self = CE ->
  (forall inp prev,
      coding.en inp = false -> nbits prev = coding.n_reqs self ->
      coding.out self inp prev = prev /\ coding.next self inp prev = prev) /\
  (forall inps s,
      nbits s = coding.n_reqs self ->
      Forall (fun x => coding.en x = false) inps ->
      Forall (fun o => o = s) (coding.run self s inps) /\
      coding.state_after self s inps = s) /\
  (forall x y s,
      coding.en y = false ->
      coding.out self y (coding.next self x s) = coding.out self x s) /\
  (forall x s, coding.next self x s <> s -> coding.en x = true).
Proof.
  intros Hpol.
  assert (Hen : forall inp s, coding.enable self inp s = coding.en inp).
  { intros inp s. unfold coding.enable. now rewrite Hpol. }
  assert (Hhold : forall inp prev,
             coding.en inp = false -> nbits prev = coding.n_reqs self ->
             coding.out self inp prev = prev /\
             coding.next self inp prev = prev).
  { intros inp prev He Hp. unfold coding.out, coding.next.
    rewrite step_eq, Hen, He. simpl. now rewrite assign_id. }
  split; [exact Hhold | split; [| split]].
  - intros inps s Hs Hall. induction Hall as [| x xs Hx _ IH]; simpl.
    + split; [constructor | reflexivity].
    + destruct (Hhold x s Hx Hs) as [Ho Hn]. rewrite Hn, Ho.
      destruct IH as [IH1 IH2]. split; [now constructor | exact IH2].
  - intros x y s Hy. unfold coding.out, coding.next.
    rewrite !step_eq, !Hen, Hy. simpl.
    destruct (coding.en x); simpl; [apply assign_grant | reflexivity].
  - intros x s Hne. unfold coding.next in Hne. rewrite step_eq, Hen in Hne.
    destruct (coding.en x); [reflexivity |]. simpl in Hne. now elim Hne.
Qed.

(** C5 at width 2: with lastGrant 0b01 and enable low, requests 0b10 leave
    the grant at 0b01. *)
Lemma C5_CE_witness :
  let self := {| coding.n_reqs := 2; coding.policy := CE |} in
  let inp := {| coding.i := of_Z 2 2; coding.en := false |} in
  coding.policy self = CE /\
  coding.out self inp (of_Z 2 1) = of_Z 2 1 /\
  coding.next self inp (of_Z 2 1) = of_Z 2 1.
Proof.
  split; [reflexivity |].
  destruct (@C5_CE_disabled_tick_holds
              {| coding.n_reqs := 2; coding.policy := CE |} eq_refl)
    as [H _].
  apply (H {| coding.i := of_Z 2 2; coding.en := false |} (of_Z 2 1));
    reflexivity.
Defined.

(** No class of arbiter.py can be constructed: each constructor passes the
    instance a second time to [ArbiterInterface.__init__]. *)
Lemma arbiter_construction_raises (n_req a : value) :
  raises (arbiter.PriorityArbiter___init__ n_req) = true /\
  raises (arbiter.RoundRobinArbiter___init__ n_req a) = true /\
  raises (arbiter.ProgPriorityArbiter___init__ n_req a) = true /\
  raises (arbiter.FairAmongEqualsArbiter___init__ n_req a) = true.
Proof. repeat split. Qed.

(** C6.  arbiter.py's RoundRobinArbiter yields no grant at any tick: its
    constructor raises for every argument, for width 2 and policy
    WITHDRAW a TypeError.  coding.py's RoundRobinSelector does what is
    stated: with an n-bit lastGrant its output is the fresh grant on a
    tick on which a round runs and lastGrant itself on any other tick, a
    function of the inputs and the register of that tick; at width 2
    under WITHDRAW from reset, request 0b01 held for three ticks gives
    0b01 at each of them. *)
Theorem C6_RoundRobinArbiter_is_never_constructed :
  (forall n_req policy : value,
      raises (arbiter.RoundRobinArbiter___init__ n_req policy) = true) /\
  arbiter.RoundRobinArbiter___init__ (PyInt 2) (PyArbiterPolicy WITHDRAW)
  = Raise (TypeError "__init__() takes 2 positional arguments") /\
  (forall (self : coding.RoundRobinSelector) (inp : coding.Inputs)
          (prev : Value),
      nbits prev = coding.n_reqs self ->
      coding.out self inp prev
      = if coding.enable self inp prev
        then coding.grant self (assign (coding.n_reqs self) (coding.i inp))
                          prev
        else prev) /\
  (let sel := {| coding.n_reqs := 2; coding.policy := WITHDRAW |} in
   let req := {| coding.i := of_Z 2 1; coding.en := false |} in
   coding.run sel (coding.reset sel) [req; req; req]
   = [of_Z 2 1; of_Z 2 1; of_Z 2 1]).
Proof.
  split; [| split; [| split]]; try reflexivity.
  intros self inp prev Hp. unfold coding.out. rewrite step_eq.
  destruct (coding.enable self inp prev); simpl; [reflexivity |].
  now apply assign_id.
Qed.

(** C7.  ProgPriorityArbiter grants nothing: its constructor raises for
    every argument, for n_req = 2 a TypeError.  Its tier multiplexer is
    not one either: [_bitmap_mux] with the level selection 0b01 (level 0)
    and the levels 0b10 and 0b00 (requester 1 alone, at level 0) returns
    the four bits 0b0001, not the vector 0b10 of level 0. *)
Theorem C7_ProgPriorityArbiter_is_never_constructed :
  (forall n_req max_pri : value,
      raises (arbiter.ProgPriorityArbiter___init__ n_req max_pri) = true) /\
  arbiter.ProgPriorityArbiter___init__ (PyInt 2) PyNone
  = Raise (TypeError "__init__() takes 2 positional arguments") /\
  arbiter._bitmap_mux (of_Z 2 1) [of_Z 2 2; of_Z 2 0] 2 = Some (of_Z 4 1).
Proof. repeat split. Qed.

(** C8.  FairAmongEqualsArbiter grants nothing: its constructor raises
    for every argument, for n_req = 2 a TypeError; and the rotation it
    would apply, [_rrobin_sel], ends in an exception on every call. *)
Theorem C8_FairAmongEqualsArbiter_is_never_constructed :
  (forall n_req max_pri : value,
      raises (arbiter.FairAmongEqualsArbiter___init__ n_req max_pri) = true) /\
  arbiter.FairAmongEqualsArbiter___init__ (PyInt 2) PyNone
  = Raise (TypeError "__init__() takes 2 positional arguments") /\
  (forall req prev_grant : Value,
      arbiter._rrobin_sel req prev_grant = None).
Proof. repeat split. Qed.

(** C10, as stated, fails: RoundRobinEncoder is constructed with a policy
    that is not a RobinPolicy member (the string WITHDRAW), without any
    error. *)
Lemma C10_RoundRobinEncoder_accepts_unrecognized_policy :
  is_RobinPolicy (PyStr "WITHDRAW") = false /\
  coding.RoundRobinEncoder___init__ (PyInt 2) (PyStr "WITHDRAW")
  = Ok {| coding.enc_n_reqs := PyInt 2;
          coding.enc_policy := PyStr "WITHDRAW";
          coding.enc_has_en := false |}.
Proof. split; reflexivity. Qed.

Lemma Signal_positive_int v :
  is_positive_int v = true -> exists w, Signal v = Ok w /\ 1 <= w.
Proof.
  unfold is_positive_int, not_positive_int, Signal. intros H.
  destruct v; simpl in *; try discriminate.
  - destruct b; simpl in *; [| discriminate]. exists 1. auto.
  - destruct (Z.ltb_spec z 1) as [Hz | Hz]; [discriminate |].
    destruct (Z.ltb_spec z 0) as [Hz0 | Hz0]; [lia |].
    exists (Z.to_nat z). split; [reflexivity | lia].
Qed.

(** C10, amended.  RoundRobinSelector's constructor raises, and raises a
    TypeError, exactly when n_reqs is not a positive integer or policy is
    not a RobinPolicy member; otherwise it yields an instance of width at
    least 1.  PrioritySelector's constructor makes no check of its own: it
    fails exactly where the framework refuses the width for a signal.
    RoundRobinEncoder's constructor never examines the policy and accepts
    every positive integer width; its parameters are checked when
    elaborate constructs the RoundRobinSelector, which raises exactly when
    n_reqs is not a positive integer or policy is not a RobinPolicy
    member. *)
Theorem C10_construction_errors :
  (forall n_reqs policy,
      raises (coding.RoundRobinSelector___init__ n_reqs policy)
      = negb (is_positive_int n_reqs && is_RobinPolicy policy)) /\
  (forall n_reqs policy e,
      coding.RoundRobinSelector___init__ n_reqs policy = Raise e ->
      exists msg, e = TypeError msg) /\
  (forall n_reqs policy self,
      coding.RoundRobinSelector___init__ n_reqs policy = Ok self ->
      1 <= coding.n_reqs self /\
      policy = PyCodingPolicy (coding.policy self)) /\
  (forall width,
      raises (coding.PrioritySelector___init__ width) = raises (Signal width)) /\
  (forall n_reqs policy policy',
      raises (coding.RoundRobinEncoder___init__ n_reqs policy)
      = raises (coding.RoundRobinEncoder___init__ n_reqs policy')) /\
  (forall n_reqs policy,
      is_positive_int n_reqs = true ->
      raises (coding.RoundRobinEncoder___init__ n_reqs policy) = false) /\
  (forall n_reqs policy self,
      coding.RoundRobinEncoder___init__ n_reqs policy = Ok self ->
      raises (coding.RoundRobinEncoder_elaborate self)
      = negb (is_positive_int n_reqs && is_RobinPolicy policy)).
Proof.
  assert (Hsel : forall n_reqs policy,
             raises (coding.RoundRobinSelector___init__ n_reqs policy)
             = negb (is_positive_int n_reqs && is_RobinPolicy policy)).
  { intros n_reqs policy. unfold coding.RoundRobinSelector___init__.
    destruct policy; simpl; try (now rewrite andb_false_r).
    rewrite andb_true_r. unfold is_positive_int.
    destruct (not_positive_int n_reqs) eqn:E; [reflexivity |].
    destruct (@Signal_positive_int n_reqs) as [w [Hw _]].
    { unfold is_positive_int. now rewrite E. }
    rewrite Hw. simpl. now destruct p. }
  assert (Henc : forall n_reqs,
             is_positive_int n_reqs = true ->
             exists w, coding.Encoder___init__ n_reqs = Ok w).
  { intros n_reqs Hn. unfold coding.Encoder___init__.
    destruct (Signal_positive_int _ Hn) as [w [Hw _]]. rewrite Hw. simpl.
    unfold coding.max2. unfold is_positive_int, not_positive_int in Hn.
    destruct (as_int n_reqs); [| discriminate]. simpl. now exists w. }
  repeat split.
  - apply Hsel.
  - intros n_reqs policy e. unfold coding.RoundRobinSelector___init__.
    destruct policy; try (intros [= <-]; eexists; reflexivity).
    destruct (not_positive_int n_reqs) eqn:E;
      [intros [= <-]; eexists; reflexivity |].
    destruct (@Signal_positive_int n_reqs) as [w [Hw _]].
    { unfold is_positive_int. now rewrite E. }
    rewrite Hw. simpl. destruct p; discriminate.
  - revert H. unfold coding.RoundRobinSelector___init__.
    destruct policy; try discriminate.
    destruct (not_positive_int n_reqs) eqn:E; [discriminate |].
    destruct (@Signal_positive_int n_reqs) as [w [Hw Hw1]].
    { unfold is_positive_int. now rewrite E. }
    rewrite Hw. simpl. destruct p; intros [= <-]; exact Hw1.
  - revert H. unfold coding.RoundRobinSelector___init__.
    destruct policy; try discriminate.
    destruct (not_positive_int n_reqs) eqn:E; [discriminate |].
    destruct (@Signal_positive_int n_reqs) as [w [Hw Hw1]].
    { unfold is_positive_int. now rewrite E. }
    rewrite Hw. simpl. destruct p; intros [= <-]; reflexivity.
  - intros width. unfold coding.PrioritySelector___init__.
    destruct (Signal width); reflexivity.
  - intros n_reqs policy policy'. unfold coding.RoundRobinEncoder___init__.
    destruct (Signal n_reqs); simpl; [| reflexivity].
    destruct (coding.max2 n_reqs); simpl; [| reflexivity].
    destruct (coding.is_CE policy), (coding.is_CE policy'); reflexivity.
  - intros n_reqs policy Hn. unfold coding.RoundRobinEncoder___init__.
    destruct (Signal_positive_int _ Hn) as [w [Hw _]]. rewrite Hw. simpl.
    unfold coding.max2. unfold is_positive_int, not_positive_int in Hn.
    destruct (as_int n_reqs); [| discriminate]. simpl.
    destruct (coding.is_CE policy); reflexivity.
  - intros n_reqs policy self Hinit.
    assert (Hself : coding.enc_n_reqs self = n_reqs /\
                    coding.enc_policy self = policy).
    { revert Hinit. unfold coding.RoundRobinEncoder___init__.
      destruct (Signal n_reqs); simpl; [| discriminate].
      destruct (coding.max2 n_reqs); simpl; [| discriminate].
      destruct (coding.is_CE policy); simpl; intros [= <-]; now split. }
    destruct Hself as [Hn Hp]. unfold coding.RoundRobinEncoder_elaborate.
    rewrite Hn, Hp. rewrite <- Hsel.
    destruct (coding.RoundRobinSelector___init__ n_reqs policy) eqn:E;
      simpl; [| reflexivity].
    assert (Hv : is_positive_int n_reqs = true).
    { pose proof (Hsel n_reqs policy) as Hr. rewrite E in Hr. simpl in Hr.
      destruct (is_positive_int n_reqs); [reflexivity | discriminate]. }
    destruct (Henc _ Hv) as [w Hw]. now rewrite Hw.
Qed.

(** C10 at width 2 with policy WITHDRAW: RoundRobinSelector is
    constructed, and RoundRobinEncoder with it elaborates. *)
Lemma C10_construction_witness :
  coding.RoundRobinSelector___init__ (PyInt 2) (PyCodingPolicy WITHDRAW)
  = Ok {| coding.n_reqs := 2; coding.policy := WITHDRAW |} /\
  1 <= 2 /\
  is_positive_int (PyInt 2) = true /\
  raises (coding.RoundRobinEncoder___init__ (PyInt 2) (PyStr "WITHDRAW"))
  = false.
Proof.
  destruct C10_construction_errors as [_ [_ [H3 [_ [_ [H6 _]]]]]].
  split; [reflexivity |].
  split; [exact (proj1 (H3 (PyInt 2) (PyCodingPolicy WITHDRAW) _ eq_refl)) |].
  split; [reflexivity |].
  apply H6. reflexivity.
Defined.

(* ================================================================== *)
(** * No starvation *)
(* ================================================================== *)

Section NoStarvation.

Import rotation.

Lemma distance_pos n prev r : at_most_one_hot n prev -> 1 <= distance n prev r.
Proof.
  unfold distance. intros [-> | [k [Hk ->]]].
  - rewrite lowest_zeros. lia.
  - rewrite lowest_onehot by exact Hk. destruct (Nat.ltb_spec k r); lia.
Qed.

Lemma distance_le n prev r :
  at_most_one_hot n prev -> r < n -> distance n prev r <= n.
Proof.
  unfold distance. intros [-> | [k [Hk ->]]] Hr.
  - rewrite lowest_zeros. lia.
  - rewrite lowest_onehot by exact Hk. destruct (Nat.ltb_spec k r); lia.
Qed.

(** One round with requester [r] asserting: [r] is granted, or the
    rotation comes strictly closer to [r]. *)
Lemma rrobin_progress (R prev : Value) r :
  at_most_one_hot (nbits R) prev -> bit R r = true ->
  rotation.rotate R prev = onehot (nbits R) r \/
  (at_most_one_hot (nbits R) (rotation.rotate R prev) /\
   distance (nbits R) (rotation.rotate R prev) r
   < distance (nbits R) prev r).
Proof.
  intros Hprev Hr. pose proof (bit_in_range _ _ Hr) as Hrn.
  pose proof (at_most_one_hot_nbits Hprev) as Hw.
  rewrite rrobin_sel_lowest by exact Hw.
  assert (Hwrap : forall d, r < d ->
            match lowest R with
            | Some k => onehot (nbits R) k
            | None => zeros (nbits R)
            end = onehot (nbits R) r \/
            (at_most_one_hot (nbits R)
               match lowest R with
               | Some k => onehot (nbits R) k
               | None => zeros (nbits R)
               end /\
             distance (nbits R)
               match lowest R with
               | Some k => onehot (nbits R) k
               | None => zeros (nbits R)
               end r < d)).
  { intros d Hd. destruct (lowest R) as [m |] eqn:ER.
    - destruct (lowest_Some _ ER) as [Hm [Hlow Hmn]].
      destruct (Nat.lt_trichotomy m r) as [H | [H | H]].
      + right. split; [right; now exists m |].
        unfold distance. rewrite lowest_onehot by exact Hmn.
        apply Nat.ltb_lt in H. rewrite H. apply Nat.ltb_lt in H. lia.
      + left. now subst.
      + rewrite (Hlow _ H) in Hr. discriminate.
    - rewrite (lowest_None _ ER) in Hr. discriminate. }
  destruct Hprev as [-> | [k [Hk ->]]].
  - rewrite lowest_None_intro.
    + apply Hwrap. unfold distance. rewrite lowest_zeros. lia.
    + intros j. rewrite bit_and, bit_smear_zeros. apply andb_false_r.
  - unfold distance at 2. rewrite lowest_onehot by exact Hk.
    destruct (lowest (and_ R _)) as [m |] eqn:EA.
    + destruct (lowest_Some _ EA) as [Hm [Hlow Hmn]].
      rewrite nbits_above in Hmn by apply nbits_onehot.
      rewrite bit_and, bit_smear_onehot in Hm by exact Hk.
      apply andb_true_iff in Hm. destruct Hm as [HRm Hm].
      apply andb_true_iff in Hm. destruct Hm as [_ Hkm].
      apply Nat.ltb_lt in Hkm.
      destruct (Nat.eq_dec m r) as [-> | Hne]; [now left |].
      right. split; [right; now exists m |].
      unfold distance. rewrite lowest_onehot by exact Hmn.
      destruct (Nat.ltb_spec k r) as [Hkr | Hkr].
      * assert (Hmr : m < r).
        { destruct (Nat.lt_trichotomy m r) as [H | [H | H]];
            [exact H | contradiction |].
          specialize (Hlow _ H).
          rewrite bit_and, bit_smear_onehot, Hr in Hlow by exact Hk.
          apply Nat.ltb_lt in Hrn, Hkr. rewrite Hrn, Hkr in Hlow.
          discriminate. }
        apply Nat.ltb_lt in Hmr. rewrite Hmr. apply Nat.ltb_lt in Hmr. lia.
      * destruct (Nat.ltb_spec m r); lia.
    + assert (Hkr : r <= k).
      { destruct (Nat.le_gt_cases r k) as [H | H]; [exact H |].
        pose proof (lowest_None _ EA r) as Hb.
        rewrite bit_and, bit_smear_onehot, Hr in Hb by exact Hk.
        apply Nat.ltb_lt in Hrn, H. rewrite Hrn, H in Hb. discriminate. }
      apply Hwrap. destruct (Nat.ltb_spec k r); lia.
Qed.

(** ** RoundRobinSelector *)

Lemma selector_no_starvation (self : coding.RoundRobinSelector) r inps :
  forall s m,
    at_most_one_hot (coding.n_reqs self) s ->
    distance (coding.n_reqs self) s r <= m ->
    Forall (fun x => nbits (coding.i x) = coding.n_reqs self /\
                     bit (coding.i x) r = true) inps ->
    m <= popcount (coding.rounds self s inps) ->
    exists T,
      nth_error (coding.run self s inps) T
      = Some (onehot (coding.n_reqs self) r) /\
      popcount (firstn T (coding.rounds self s inps)) < m.
Proof.
  induction inps as [| x xs IH]; intros s m Hs Hd Hall Hm.
  - pose proof (distance_pos r Hs). simpl in Hm.
    change (popcount []) with 0 in Hm. lia.
  - inversion Hall as [| ? ? [HR Hr] Hall']; subst.
    pose proof (distance_pos r Hs) as Hpos.
    simpl coding.rounds in *. simpl coding.run.
    rewrite popcount_cons in Hm.
    unfold coding.next, coding.out in *. rewrite step_eq in *.
    destruct (coding.enable self x s) eqn:En; simpl in *.
    + rewrite assign_id in * by exact HR.
      rewrite grant_rrobin_sel in *
        by (try exact HR; now apply at_most_one_hot_nbits).
      pose proof (@rrobin_progress (coding.i x) s r) as Hp.
      rewrite HR in Hp. destruct (Hp Hs Hr) as [Hg | [Hg Hlt]].
      * exists 0. simpl. split; [now rewrite Hg |].
        change (popcount []) with 0. lia.
      * destruct (IH _ (m - 1) Hg) as [T [HT Hc]]; [lia | exact Hall' | lia |].
        exists (S T). simpl. split; [exact HT |].
        rewrite popcount_cons. lia.
    + destruct (IH s m Hs Hd Hall' Hm) as [T [HT Hc]].
      exists (S T). simpl. split; [exact HT |].
      rewrite popcount_cons. exact Hc.
Qed.

End NoStarvation.

(** C9.  RoundRobinSelector of width N >= 1, under either policy, from
    any one-hot-or-zero lastGrant: over ticks at each of which requester r
    asserts its N-bit request, and which contain at least N rounds of
    arbitration, r is granted at some tick before which fewer than N of
    those rounds have run.  FairAmongEqualsArbiter grants no requester at
    all: its constructor raises for every argument. *)
Theorem C9_no_starvation :
  (forall (self : coding.RoundRobinSelector) (r : nat)
          (inps : list coding.Inputs) (s : Value),
      1 <= coding.n_reqs self ->
      at_most_one_hot (coding.n_reqs self) s ->
      Forall (fun x => nbits (coding.i x) = coding.n_reqs self /\
                       bit (coding.i x) r = true) inps ->
      coding.n_reqs self <= popcount (coding.rounds self s inps) ->
      exists T,
        nth_error (coding.run self s inps) T
        = Some (onehot (coding.n_reqs self) r) /\
        popcount (firstn T (coding.rounds self s inps)) < coding.n_reqs self) /\
  (forall n_req max_pri : value,
      raises (arbiter.FairAmongEqualsArbiter___init__ n_req max_pri) = true).
Proof.
  split.
  - intros self r inps s Hn Hs Hall Hrounds.
    apply selector_no_starvation; try assumption.
    apply distance_le; [exact Hs |].
    destruct inps as [| x xs].
    + simpl in Hrounds. change (popcount []) with 0 in Hrounds. lia.
    + inversion Hall as [| ? ? [HR Hr] _]; subst.
      rewrite <- HR. now apply bit_in_range.
  - intros n_req max_pri. reflexivity.
Qed.

(** C9 at width 2 under CE from reset: with both requests held and enable
    high for two ticks, requester 1 is granted at tick 1. *)
Lemma C9_no_starvation_witness :
  let self := {| coding.n_reqs := 2; coding.policy := CE |} in
  let x := {| coding.i := of_Z 2 3; coding.en := true |} in
  coding.run self (coding.reset self) [x; x] = [of_Z 2 1; of_Z 2 2] /\
  exists T,
    nth_error (coding.run self (coding.reset self) [x; x]) T
    = Some (onehot 2 1) /\
    popcount (firstn T (coding.rounds self (coding.reset self) [x; x])) < 2.
Proof.
  split; [reflexivity |].
  destruct C9_no_starvation as [H _].
  apply (H {| coding.n_reqs := 2; coding.policy := CE |} 1
           [ {| coding.i := of_Z 2 3; coding.en := true |};
             {| coding.i := of_Z 2 3; coding.en := true |} ]
           (zeros 2)).
  - simpl. lia.
  - now left.
  - repeat constructor.
  - simpl. unfold popcount. simpl. lia.
Defined.

(* ================================================================== *)
(** * Bit vectors as integers *)
(* ================================================================== *)

Section Integers.

Local Open Scope Z_scope.

Lemma to_Z_cons b v : to_Z (b :: v) = Z.b2z b + 2 * to_Z v.
Proof. reflexivity. Qed.

Lemma to_Z_nonneg v : 0 <= to_Z v.
Proof.
  induction v as [| b v IH]; [simpl; lia |].
  rewrite to_Z_cons. destruct b; unfold Z.b2z; lia.
Qed.

Lemma to_Z_bound v : to_Z v < 2 ^ Z.of_nat (nbits v).
Proof.
  induction v as [| b v IH]; [simpl; lia |].
  unfold nbits in *. simpl length. rewrite Nat2Z.inj_succ, Z.pow_succ_r by lia.
  rewrite to_Z_cons. destruct b; unfold Z.b2z; lia.
Qed.

Lemma to_Z_inj a b : nbits a = nbits b -> to_Z a = to_Z b -> a = b.
Proof.
  revert b. induction a as [| x a IH]; intros [| y b] Hl Hz;
    try discriminate; [reflexivity |].
  rewrite !to_Z_cons in Hz. injection Hl as Hl.
  assert (x = y /\ to_Z a = to_Z b) as [-> Hab]
      by (destruct x, y; unfold Z.b2z in Hz; split; (reflexivity || lia)).
  f_equal. now apply IH.
Qed.

Lemma to_Z_zeros w : to_Z (zeros w) = 0.
Proof.
  induction w as [| w IH]; [reflexivity |].
  change (zeros (S w)) with (false :: zeros w). rewrite to_Z_cons, IH.
  reflexivity.
Qed.

Lemma to_Z_eqb_seq k a w :
  to_Z (map (Nat.eqb k) (seq a w)) =
  if ((a <=? k) && (k <? a + w))%nat then 2 ^ Z.of_nat (k - a) else 0.
Proof.
  revert a. induction w as [| w IH]; intros a.
  - simpl. destruct (Nat.leb_spec a k), (Nat.ltb_spec k (a + 0)); simpl;
      try reflexivity. lia.
  - simpl seq. simpl map. rewrite to_Z_cons, IH.
    destruct (Nat.eqb_spec k a) as [-> | Hne].
    + rewrite Nat.leb_refl. destruct (Nat.ltb_spec a (a + S w)); [| lia].
      destruct (Nat.leb_spec (S a) a); [lia |]. simpl andb.
      rewrite Nat.sub_diag. reflexivity.
    + destruct (Nat.leb_spec (S a) k), (Nat.leb_spec a k),
        (Nat.ltb_spec k (S a + w)), (Nat.ltb_spec k (a + S w));
        simpl andb; unfold Z.b2z; try lia.
      replace (k - a)%nat with (S (k - S a)) by lia.
      rewrite Nat2Z.inj_succ, Z.pow_succ_r by lia. lia.
Qed.

Lemma to_Z_onehot w k : (k < w)%nat -> to_Z (onehot w k) = 2 ^ Z.of_nat k.
Proof.
  intros H. unfold onehot. rewrite to_Z_eqb_seq. simpl.
  destruct (Nat.ltb_spec k w); [| lia]. now rewrite Nat.sub_0_r.
Qed.

Lemma to_Z_zero v : to_Z v = 0 -> v = zeros (nbits v).
Proof.
  intros H. apply to_Z_inj; [now rewrite nbits_zeros |].
  now rewrite to_Z_zeros.
Qed.

Lemma of_Z_zero w : of_Z w 0 = zeros w.
Proof.
  apply bits_ext;
    [rewrite nbits_zeros; unfold of_Z, nbits; now rewrite length_map, length_seq |].
  intros k _. unfold of_Z. rewrite bit_map_seq, bit_zeros, Z.bits_0.
  now destruct (k <? w)%nat.
Qed.

Lemma of_Z_shiftl_1 w j : of_Z w (Z.shiftl 1 (Z.of_nat j)) = onehot w j.
Proof.
  unfold of_Z, onehot. apply map_ext. intros k.
  rewrite Z.shiftl_1_l, Z.pow2_bits_eqb by lia.
  destruct (Nat.eqb_spec j k) as [-> | Hne].
  - apply Z.eqb_refl.
  - apply Z.eqb_neq. lia.
Qed.

(** An index below the width fits the binary-coded signal. *)
Lemma wrap_index w k :
  (k < w)%nat -> wrap (index_width w) (Z.of_nat k) = Z.of_nat k.
Proof.
  intros H. unfold wrap, index_width. apply Z.mod_small.
  split; [lia |].
  pose proof (Z.log2_up_nonneg (Z.max 2 (Z.of_nat w))) as Hnn.
  rewrite Z2Nat.id by exact Hnn.
  pose proof (Z.log2_up_spec (Z.max 2 (Z.of_nat w))) as Hs.
  lia.
Qed.

Lemma wrap_range w z : 0 <= wrap w z < 2 ^ Z.of_nat w.
Proof. unfold wrap. apply Z.mod_pos_bound. apply Z.pow_pos_nonneg; lia. Qed.

Lemma fold_left_rev (A B : Type) (g : A -> B -> A) (l : list B) (a : A) :
  fold_left g (rev l) a = fold_right (fun x y => g y x) a l.
Proof.
  revert a. induction l as [| x l IH]; intros a; simpl; [reflexivity |].
  rewrite fold_left_app. simpl. now rewrite IH.
Qed.

Lemma onehot_S_0 w : onehot (S w) 0 = true :: zeros w.
Proof.
  apply bits_ext;
    [rewrite nbits_onehot;
     change (nbits (true :: zeros w)) with (S (nbits (zeros w)));
     now rewrite nbits_zeros |].
  intros [| k] _; [reflexivity |].
  rewrite bit_onehot. change (bit (true :: zeros w) (S k)) with (bit (zeros w) k).
  rewrite bit_zeros. apply andb_false_r.
Qed.

Lemma onehot_S_S w k : onehot (S w) (S k) = false :: onehot w k.
Proof.
  unfold onehot. simpl. f_equal. rewrite <- seq_shift, map_map.
  reflexivity.
Qed.

Lemma popcount_zero v : popcount v = 0%nat -> v = zeros (nbits v).
Proof.
  induction v as [| b v IH]; intros H; [reflexivity |].
  rewrite popcount_cons in H. destruct b; [discriminate |].
  change (zeros (nbits (false :: v))) with (false :: zeros (nbits v)).
  f_equal. now apply IH.
Qed.

(** Exactly one set bit means one-hot. *)
Lemma popcount_one v :
  popcount v = 1%nat -> exists k, (k < nbits v)%nat /\ v = onehot (nbits v) k.
Proof.
  induction v as [| b v IH]; intros H; [discriminate |].
  rewrite popcount_cons in H. destruct b.
  - exists 0%nat. split; [unfold nbits; simpl; lia |].
    change (nbits (true :: v)) with (S (nbits v)). rewrite onehot_S_0.
    f_equal. apply popcount_zero. lia.
  - destruct (IH H) as [k [Hk Hv]]. exists (S k).
    split; [unfold nbits in *; simpl; lia |].
    change (nbits (false :: v)) with (S (nbits v)). rewrite onehot_S_S.
    f_equal. exact Hv.
Qed.

End Integers.

(* ================================================================== *)
(** * Encoder, PriorityEncoder, Decoder *)
(* ================================================================== *)

Section Codecs.

Local Open Scope Z_scope.

Lemma truthy_zeros w : truthy (zeros w) = false.
Proof. apply truthy_false_bit. intros k. apply bit_zeros. Qed.

Lemma truthy_to_Z v : truthy v = negb (to_Z v =? 0).
Proof.
  destruct (Z.eqb_spec (to_Z v) 0) as [H | H]; simpl.
  - rewrite (to_Z_zero _ H). apply truthy_zeros.
  - destruct (truthy v) eqn:E; [reflexivity |].
    exfalso. apply H. rewrite truthy_false_bit in E.
    replace v with (zeros (nbits v)); [apply to_Z_zeros |].
    apply bits_ext; [apply nbits_zeros |].
    intros k _. now rewrite bit_zeros, E.
Qed.

Lemma Encoder_find_onehot w k :
  (k < w)%nat ->
  find (fun j => to_Z (onehot w k) =? Z.shiftl 1 (Z.of_nat j)) (seq 0 w)
  = Some k.
Proof.
  intros Hk. rewrite to_Z_onehot by exact Hk.
  destruct (find _ (seq 0 w)) as [j |] eqn:E.
  - apply find_some in E. destruct E as [_ E].
    apply Z.eqb_eq in E. rewrite Z.shiftl_1_l in E.
    apply Z.pow_inj_r in E; try lia. f_equal. lia.
  - apply find_none with (x := k) in E; [| apply in_seq; lia].
    rewrite Z.shiftl_1_l, Z.eqb_refl in E. discriminate.
Qed.

Lemma Encoder_find_other w (i : Value) :
  nbits i = w ->
  (forall k, (k < w)%nat -> i <> onehot w k) ->
  find (fun j => to_Z i =? Z.shiftl 1 (Z.of_nat j)) (seq 0 w) = None.
Proof.
  intros Hi Hno. destruct (find _ (seq 0 w)) as [j |] eqn:E; [| reflexivity].
  apply find_some in E. destruct E as [Hin E]. apply in_seq in Hin.
  apply Z.eqb_eq in E. rewrite Z.shiftl_1_l in E.
  exfalso. apply (Hno j); [lia |].
  apply to_Z_inj; [now rewrite nbits_onehot |].
  rewrite to_Z_onehot by lia. exact E.
Qed.

Lemma Encoder_onehot w k :
  (k < w)%nat ->
  coding.Encoder_elaborate {| coding.Encoder_width := w |} (onehot w k)
  = (Z.of_nat k, false).
Proof.
  intros Hk. unfold coding.Encoder_elaborate. simpl.
  rewrite assign_id by apply nbits_onehot.
  rewrite Encoder_find_onehot by exact Hk. now rewrite wrap_index.
Qed.

Lemma Encoder_other w (i : Value) :
  nbits i = w -> popcount i <> 1%nat ->
  coding.Encoder_elaborate {| coding.Encoder_width := w |} i = (0, true).
Proof.
  intros Hi Hp. unfold coding.Encoder_elaborate. simpl.
  rewrite assign_id by exact Hi. rewrite Encoder_find_other; auto.
  intros k Hk ->. apply Hp. now apply popcount_onehot_in.
Qed.

Lemma Decoder_find w v :
  0 <= v ->
  find (fun j => v =? Z.of_nat j) (seq 0 w)
  = if v <? Z.of_nat w then Some (Z.to_nat v) else None.
Proof.
  intros Hv. destruct (find _ (seq 0 w)) as [j |] eqn:E.
  - apply find_some in E. destruct E as [Hin E]. apply in_seq in Hin.
    apply Z.eqb_eq in E. subst v.
    destruct (Z.ltb_spec (Z.of_nat j) (Z.of_nat w)); [| lia].
    now rewrite Nat2Z.id.
  - destruct (Z.ltb_spec v (Z.of_nat w)) as [H | H]; [| reflexivity].
    apply find_none with (x := Z.to_nat v) in E; [| apply in_seq; lia].
    rewrite Z2Nat.id, Z.eqb_refl in E by exact Hv. discriminate.
Qed.

Lemma Decoder_eq self i n :
  coding.Decoder_elaborate self i n =
  if n then zeros (coding.Decoder_width self)
  else
    let v := wrap (index_width (coding.Decoder_width self)) i in
    if v <? Z.of_nat (coding.Decoder_width self)
    then onehot (coding.Decoder_width self) (Z.to_nat v)
    else zeros (coding.Decoder_width self).
Proof.
  unfold coding.Decoder_elaborate. rewrite of_Z_zero.
  destruct n; [reflexivity |]. simpl.
  rewrite Decoder_find by apply wrap_range.
  destruct (_ <? _); [| reflexivity].
  rewrite <- of_Z_shiftl_1. rewrite Z2Nat.id by apply wrap_range.
  reflexivity.
Qed.

Lemma PriorityEncoder_fold (i : Value) (f : nat -> Z) a len :
  (forall k, (a <= k < a + len)%nat -> bit i k = true ->
             (forall j, (a <= j < k)%nat -> bit i j = false) ->
             fold_right (fun j o => if bit i j then f j else o) 0
                        (seq a len) = f k) /\
  ((forall j, (a <= j < a + len)%nat -> bit i j = false) ->
   fold_right (fun j o => if bit i j then f j else o) 0 (seq a len) = 0).
Proof.
  revert a. induction len as [| len IH]; intros a; simpl.
  - split; [intros k Hk; lia | reflexivity].
  - destruct (IH (S a)) as [IH1 IH2]. split.
    + intros k Hk Hb Hlow. destruct (Nat.eq_dec k a) as [-> | Hne].
      * now rewrite Hb.
      * rewrite (Hlow a) by lia. apply IH1; [lia | exact Hb |].
        intros j Hj. apply Hlow. lia.
    + intros Hz. rewrite (Hz a) by lia. apply IH2.
      intros j Hj. apply Hz. lia.
Qed.

End Codecs.

Lemma PriorityEncoder_spec
        (self : coding.PriorityEncoder) (i : Value) :
  nbits i = coding.PriorityEncoder_width self ->
  snd (coding.PriorityEncoder_elaborate self i) = negb (truthy i) /\
  (forall k, bit i k = true -> (forall j, j < k -> bit i j = false) ->
             fst (coding.PriorityEncoder_elaborate self i) = Z.of_nat k) /\
  (truthy i = false -> fst (coding.PriorityEncoder_elaborate self i) = 0%Z).
Proof.
  intros Hi. unfold coding.PriorityEncoder_elaborate.
  rewrite assign_id by exact Hi. simpl. rewrite fold_left_rev.
  destruct (PriorityEncoder_fold i
              (fun j => wrap (index_width (coding.PriorityEncoder_width self))
                             (Z.of_nat j))
              0 (coding.PriorityEncoder_width self)) as [H1 H2].
  split; [| split].
  - rewrite truthy_to_Z. now rewrite negb_involutive.
  - intros k Hb Hlow. pose proof (bit_in_range _ _ Hb) as Hk.
    rewrite Hi in Hk. rewrite (H1 k); [now apply wrap_index | lia | exact Hb |].
    intros j Hj. apply Hlow. lia.
  - intros Hz. apply H2. intros j _.
    now apply (proj1 (truthy_false_bit i)).
Qed.


Lemma Decoder_index w i :
  (0 <= i < Z.of_nat w)%Z ->
  coding.Decoder_elaborate {| coding.Decoder_width := w |} i false
  = onehot w (Z.to_nat i).
Proof.
  intros Hi. rewrite Decoder_eq. simpl.
  assert (Hw : wrap (index_width w) i = i).
  { pose proof (@wrap_index w (Z.to_nat i)) as Hw.
    rewrite Z2Nat.id in Hw by lia. apply Hw. lia. }
  rewrite Hw. destruct (Z.ltb_spec i (Z.of_nat w)); [reflexivity | lia].
Qed.

(** X1.  Encoder of width W on a W-bit input: the flag n is low exactly
    when one bit of the input is set; the output is then the index of that
    bit; otherwise n is high and the output is 0. *)
Theorem X1_Encoder_one_hot_to_index (self : coding.Encoder) (i : Value) :
  nbits i = coding.Encoder_width self ->
  snd (coding.Encoder_elaborate self i) = negb (popcount i =? 1) /\
  (forall k, k < coding.Encoder_width self ->
             i = onehot (coding.Encoder_width self) k ->
             coding.Encoder_elaborate self i = (Z.of_nat k, false)) /\
  (popcount i <> 1 -> coding.Encoder_elaborate self i = (0%Z, true)).
Proof.
  intros Hi. destruct self as [w]. simpl in *.
  assert (H2 : forall k, k < w -> i = onehot w k ->
             coding.Encoder_elaborate {| coding.Encoder_width := w |} i
             = (Z.of_nat k, false)).
  { intros k Hk ->. now apply Encoder_onehot. }
  split; [| split; [exact H2 | now apply Encoder_other]].
  destruct (Nat.eqb_spec (popcount i) 1) as [H | H]; simpl.
  - destruct (popcount_one _ H) as [k [Hk Hv]]. rewrite Hi in Hk, Hv.
    now rewrite (H2 k Hk Hv).
  - now rewrite Encoder_other.
Qed.

(** X1 at width 4: input 0b0100 gives index 2 with n low. *)
Lemma X1_Encoder_witness :
  nbits (of_Z 4 4) = 4 /\
  coding.Encoder_elaborate {| coding.Encoder_width := 4 |} (of_Z 4 4)
  = (2%Z, false).
Proof.
  split; [reflexivity |].
  destruct (@X1_Encoder_one_hot_to_index
              {| coding.Encoder_width := 4 |} (of_Z 4 4) eq_refl)
    as [_ [H _]].
  apply (H 2); [simpl; lia | reflexivity].
Defined.

(** X2.  PriorityEncoder of width W on a W-bit input: the flag n is high
    exactly when the input is zero; the output is the index of the least
    significant set bit, and 0 when there is none. *)
Theorem X2_PriorityEncoder_lowest_index
        (self : coding.PriorityEncoder) (i : Value) :
  nbits i = coding.PriorityEncoder_width self ->
  snd (coding.PriorityEncoder_elaborate self i) = negb (truthy i) /\
  (forall k, bit i k = true -> (forall j, j < k -> bit i j = false) ->
             fst (coding.PriorityEncoder_elaborate self i) = Z.of_nat k) /\
  (truthy i = false -> fst (coding.PriorityEncoder_elaborate self i) = 0%Z).
Proof. apply PriorityEncoder_spec. Qed.

(** X2 at width 4: input 0b0110 gives index 1 with n low. *)
Lemma X2_PriorityEncoder_witness :
  nbits (of_Z 4 6) = 4 /\
  coding.PriorityEncoder_elaborate
    {| coding.PriorityEncoder_width := 4 |} (of_Z 4 6) = (1%Z, false).
Proof.
  split; [reflexivity |].
  destruct (@X2_PriorityEncoder_lowest_index
              {| coding.PriorityEncoder_width := 4 |} (of_Z 4 6) eq_refl)
    as [Hn [Ho _]].
  specialize (Ho 1 eq_refl).
  destruct (coding.PriorityEncoder_elaborate _ _) as [o n]. simpl in *.
  rewrite Hn, Ho; [reflexivity |].
  intros [| j] Hj; [reflexivity | lia].
Defined.

(** X3.  Decoder of width W: with n high the output is zero; with n low
    and an index below W the output is one-hot at that index; with n low
    and an index (as carried by the input signal) of W or more, no case
    matches and the output is zero.  The output never has two bits set. *)
Theorem X3_Decoder_index_to_one_hot (self : coding.Decoder) (i : Z) :
  coding.Decoder_elaborate self i true = zeros (coding.Decoder_width self) /\
  ((0 <= i < Z.of_nat (coding.Decoder_width self))%Z ->
   coding.Decoder_elaborate self i false
   = onehot (coding.Decoder_width self) (Z.to_nat i)) /\
  ((Z.of_nat (coding.Decoder_width self)
    <= wrap (index_width (coding.Decoder_width self)) i)%Z ->
   coding.Decoder_elaborate self i false = zeros (coding.Decoder_width self)) /\
  (forall n, popcount (coding.Decoder_elaborate self i n) <= 1).
Proof.
  split; [| split; [| split]].
  - now rewrite Decoder_eq.
  - intros Hi. rewrite Decoder_eq. simpl.
    assert (Hw : wrap (index_width (coding.Decoder_width self)) i = i).
    { pose proof (@wrap_index (coding.Decoder_width self) (Z.to_nat i)) as Hw.
      rewrite Z2Nat.id in Hw by lia. apply Hw. lia. }
    rewrite Hw.
    destruct (Z.ltb_spec i (Z.of_nat (coding.Decoder_width self)));
      [reflexivity | lia].
  - intros Hi. rewrite Decoder_eq. simpl.
    destruct (Z.ltb_spec (wrap (index_width (coding.Decoder_width self)) i)
                         (Z.of_nat (coding.Decoder_width self)));
      [lia | reflexivity].
  - intros n. rewrite Decoder_eq. destruct n; simpl.
    + rewrite popcount_zeros. lia.
    + destruct (_ <? _)%Z; [apply popcount_onehot |].
      rewrite popcount_zeros. lia.
Qed.

(** X3 at width 4: index 3 with n low gives 0b1000. *)
Lemma X3_Decoder_witness :
  (0 <= 3 < Z.of_nat 4)%Z /\
  coding.Decoder_elaborate {| coding.Decoder_width := 4 |} 3 false
  = of_Z 4 8.
Proof.
  split; [simpl; lia |].
  destruct (X3_Decoder_index_to_one_hot {| coding.Decoder_width := 4 |} 3)
    as [_ [H _]].
  apply H. simpl. lia.
Defined.

(** X4.  Encoder and Decoder of the same width W, wired o to i and n to
    n: a one-hot W-bit vector comes back unchanged and any other W-bit
    vector comes back as zero; in the other direction an index below W
    comes back unchanged with n low. *)
Theorem X4_Encoder_Decoder_round_trip (w : nat) :
  (forall v : Value,
      nbits v = w ->
      coding.Decoder_elaborate
        {| coding.Decoder_width := w |}
        (fst (coding.Encoder_elaborate {| coding.Encoder_width := w |} v))
        (snd (coding.Encoder_elaborate {| coding.Encoder_width := w |} v))
      = if popcount v =? 1 then v else zeros w) /\
  (forall x : Z,
      (0 <= x < Z.of_nat w)%Z ->
      coding.Encoder_elaborate
        {| coding.Encoder_width := w |}
        (coding.Decoder_elaborate {| coding.Decoder_width := w |} x false)
      = (x, false)).
Proof.
  split.
  - intros v Hv. destruct (Nat.eqb_spec (popcount v) 1) as [H | H].
    + destruct (popcount_one _ H) as [k [Hk Hk']]. rewrite Hv in Hk, Hk'.
      rewrite Hk' at 1 2. rewrite Encoder_onehot by exact Hk. cbn [fst snd].
      rewrite Decoder_index by lia. now rewrite Nat2Z.id.
    + rewrite Encoder_other by assumption. cbn [fst snd].
      now rewrite Decoder_eq.
  - intros x Hx. rewrite Decoder_index by exact Hx.
    rewrite Encoder_onehot by lia. now rewrite Z2Nat.id by lia.
Qed.

(** X4 at width 4: 0b0100 is encoded and decoded back to 0b0100. *)
Lemma X4_round_trip_witness :
  nbits (of_Z 4 4) = 4 /\
  coding.Decoder_elaborate
    {| coding.Decoder_width := 4 |}
    (fst (coding.Encoder_elaborate {| coding.Encoder_width := 4 |} (of_Z 4 4)))
    (snd (coding.Encoder_elaborate {| coding.Encoder_width := 4 |} (of_Z 4 4)))
  = of_Z 4 4.
Proof.
  split; [reflexivity |].
  exact (proj1 (X4_Encoder_Decoder_round_trip 4) (of_Z 4 4) eq_refl).
Defined.

(** X5.  PriorityEncoder followed by Decoder, of the same width W and
    wired o to i and n to n, computes what PrioritySelector of width W
    computes on the same W-bit input. *)
Theorem X5_PriorityEncoder_Decoder_is_PrioritySelector (w : nat) (R : Value) :
  nbits R = w ->
  coding.Decoder_elaborate
    {| coding.Decoder_width := w |}
    (fst (coding.PriorityEncoder_elaborate
            {| coding.PriorityEncoder_width := w |} R))
    (snd (coding.PriorityEncoder_elaborate
            {| coding.PriorityEncoder_width := w |} R))
  = coding.PrioritySelector_o {| coding.width := w |} R.
Proof.
  intros HR.
  destruct (@PriorityEncoder_spec
              {| coding.PriorityEncoder_width := w |} R HR) as [Hn [Ho Hz]].
  rewrite PrioritySelector_o_eq. simpl coding.width.
  rewrite assign_id by exact HR. rewrite priority_sel_lowest, HR, Hn.
  destruct (lowest R) as [k |] eqn:E.
  - destruct (lowest_Some _ E) as [Hb [Hlow Hk]].
    assert (Ht : truthy R = true) by (apply truthy_bit; now exists k).
    rewrite Ht, (Ho k Hb Hlow). cbn [negb].
    rewrite Decoder_index by lia. now rewrite Nat2Z.id.
  - assert (Ht : truthy R = false).
    { apply truthy_false_bit. now apply lowest_None. }
    rewrite Ht. cbn [negb]. now rewrite Decoder_eq.
Qed.

(** X5 at width 4 on 0b0110: both give 0b0010. *)
Lemma X5_witness :
  nbits (of_Z 4 6) = 4 /\
  coding.Decoder_elaborate
    {| coding.Decoder_width := 4 |}
    (fst (coding.PriorityEncoder_elaborate
            {| coding.PriorityEncoder_width := 4 |} (of_Z 4 6)))
    (snd (coding.PriorityEncoder_elaborate
            {| coding.PriorityEncoder_width := 4 |} (of_Z 4 6)))
  = of_Z 4 2.
Proof.
  split; [reflexivity |].
  exact (@X5_PriorityEncoder_Decoder_is_PrioritySelector 4 (of_Z 4 6) eq_refl).
Defined.

(* ================================================================== *)
(** * GrayEncoder and GrayDecoder *)
(* ================================================================== *)

Section Gray.

Lemma bit_xor a b k : bit (xor_ a b) k = xorb (bit a k) (bit b k).
Proof. now apply bit_bitwise. Qed.

Lemma nbits_set_bit v k b : nbits (set_bit v k b) = nbits v.
Proof. unfold set_bit, nbits at 1. now rewrite length_map, length_seq. Qed.

Lemma bit_set_bit v k b j :
  bit (set_bit v k b) j =
  if j <? nbits v then (if j =? k then b else bit v j) else false.
Proof. unfold set_bit. apply bit_map_seq. Qed.

Lemma nbits_GrayEncoder self i :
  nbits (coding.GrayEncoder_elaborate self i) = coding.GrayEncoder_width self.
Proof. apply nbits_assign. Qed.

Lemma bit_GrayEncoder self i k :
  nbits i = coding.GrayEncoder_width self ->
  bit (coding.GrayEncoder_elaborate self i) k =
  (k <? coding.GrayEncoder_width self) && xorb (bit i k) (bit i (S k)).
Proof.
  intros Hi. unfold coding.GrayEncoder_elaborate.
  rewrite (assign_id i Hi).
  rewrite bit_assign, bit_xor. unfold slice_from. now rewrite bit_skipn.
Qed.

(** What the loop of GrayDecoder has built after the indices
    [a, ..., top-1], taken downwards. *)
Lemma GrayDecoder_loop (i : Value) w top len :
  top < w ->
  forall a, a + len = top ->
    let o := fold_right
               (fun k o => set_bit o k (xorb (bit o (k + 1)) (bit i k)))
               (set_bit (zeros w) top (bit i top)) (seq a len) in
    nbits o = w /\ bit o top = bit i top /\
    (forall j, a <= j < top -> bit o j = xorb (bit o (S j)) (bit i j)).
Proof.
  intros Htop. induction len as [| len IH]; intros a Ha; simpl.
  - repeat split.
    + now rewrite nbits_set_bit, nbits_zeros.
    + rewrite bit_set_bit, nbits_zeros, Nat.eqb_refl.
      apply Nat.ltb_lt in Htop. now rewrite Htop.
    + intros j Hj. lia.
  - destruct (IH (S a) ltac:(lia)) as [Hn [Ht Hrec]].
    set (o' := fold_right _ _ (seq (S a) len)) in *.
    repeat split.
    + now rewrite nbits_set_bit.
    + rewrite bit_set_bit, Hn. apply Nat.ltb_lt in Htop. rewrite Htop.
      destruct (Nat.eqb_spec top a); [lia | exact Ht].
    + intros j Hj. rewrite !bit_set_bit, Hn.
      destruct (Nat.ltb_spec j w); [| lia].
      destruct (Nat.eqb_spec (S j) a); [lia |].
      destruct (Nat.eqb_spec j a) as [-> | Hne].
      * replace (a + 1) with (S a) by lia.
        destruct (Nat.ltb_spec (S a) w); [reflexivity | lia].
      * destruct (Nat.ltb_spec (S j) w); [| lia]. apply Hrec. lia.
Qed.

(** The decoder's output: as wide as the input, the top bit copied, and
    every other bit the bit above it XOR the input bit. *)
Lemma GrayDecoder_spec top (i : Value) :
  nbits i = S top ->
  exists o,
    coding.GrayDecoder_elaborate {| coding.GrayDecoder_width := S top |} i
    = Some o /\
    nbits o = S top /\ bit o top = bit i top /\
    (forall j, j < top -> bit o j = xorb (bit o (S j)) (bit i j)).
Proof.
  intros Hi. unfold coding.GrayDecoder_elaborate. simpl coding.GrayDecoder_width.
  rewrite assign_id by exact Hi. cbv beta iota zeta.
  replace (S top - 1) with top by lia. rewrite fold_left_rev.
  eexists. split; [reflexivity |].
  destruct (@GrayDecoder_loop i (S top) top top ltac:(lia) 0 eq_refl)
    as [H1 [H2 H3]].
  repeat split; [exact H1 | exact H2 |].
  intros j Hj. apply H3. lia.
Qed.

Lemma GrayDecoder_GrayEncoder top (x : Value) :
  nbits x = S top ->
  coding.GrayDecoder_elaborate
    {| coding.GrayDecoder_width := S top |}
    (coding.GrayEncoder_elaborate {| coding.GrayEncoder_width := S top |} x)
  = Some x.
Proof.
  intros Hx.
  set (e := coding.GrayEncoder_elaborate _ x).
  assert (He : nbits e = S top) by apply nbits_GrayEncoder.
  assert (Hb : forall k, k <= top -> bit e k = xorb (bit x k) (bit x (S k))).
  { intros k Hk. unfold e. rewrite bit_GrayEncoder by exact Hx.
    simpl coding.GrayEncoder_width.
    destruct (Nat.ltb_spec k (S top)); [reflexivity | lia]. }
  destruct (GrayDecoder_spec e He) as [o [Ho [Hn [Ht Hrec]]]].
  rewrite Ho. f_equal.
  assert (Hdown : forall m, m <= top -> bit o (top - m) = bit x (top - m)).
  { induction m as [| m IH]; intros Hm.
    - rewrite Nat.sub_0_r, Ht, Hb by lia.
      rewrite (bit_beyond x (k := S top)) by lia. apply xorb_false_r.
    - rewrite Hrec by lia. replace (S (top - S m)) with (top - m) by lia.
      rewrite IH by lia. rewrite Hb by lia.
      replace (S (top - S m)) with (top - m) by lia.
      destruct (bit x (top - m)), (bit x (top - S m)); reflexivity. }
  apply bits_ext; [congruence |].
  intros k Hk. rewrite Hn in Hk.
  replace k with (top - (top - k)) by lia. apply Hdown. lia.
Qed.

Lemma GrayEncoder_GrayDecoder top (x y : Value) :
  nbits x = S top ->
  coding.GrayDecoder_elaborate {| coding.GrayDecoder_width := S top |} x
  = Some y ->
  coding.GrayEncoder_elaborate {| coding.GrayEncoder_width := S top |} y = x.
Proof.
  intros Hx Hy. destruct (GrayDecoder_spec x Hx) as [o [Ho [Hn [Ht Hrec]]]].
  rewrite Ho in Hy. injection Hy as <-.
  apply bits_ext; [rewrite nbits_GrayEncoder; now rewrite Hx |].
  intros k Hk. rewrite nbits_GrayEncoder in Hk. simpl in Hk.
  rewrite bit_GrayEncoder by exact Hn. simpl coding.GrayEncoder_width.
  apply Nat.ltb_lt in Hk. rewrite Hk. apply Nat.ltb_lt in Hk. simpl.
  destruct (Nat.eq_dec k top) as [-> | Hne].
  - rewrite Ht, (bit_beyond o (k := S top)) by lia. apply xorb_false_r.
  - rewrite Hrec by lia.
    destruct (bit o (S k)), (bit x k); reflexivity.
Qed.

(** ** Counting up by one *)

Local Open Scope Z_scope.

Lemma inc_spec a c :
  inc a = Some c -> nbits c = nbits a /\ to_Z c = to_Z a + 1.
Proof.
  revert c. induction a as [| b a IH]; intros c H; [discriminate |].
  simpl in H. destruct b.
  - destruct (inc a) as [c' |]; [| discriminate]. injection H as <-.
    destruct (IH c' eq_refl) as [Hl Hz]. split.
    + unfold nbits in *. simpl. now rewrite Hl.
    + rewrite !to_Z_cons, Hz. unfold Z.b2z. lia.
  - injection H as <-. split; [reflexivity |].
    rewrite !to_Z_cons. unfold Z.b2z. lia.
Qed.

Lemma inc_None a : inc a = None -> to_Z a = 2 ^ Z.of_nat (nbits a) - 1.
Proof.
  induction a as [| b a IH]; intros H; [reflexivity |].
  simpl in H. destruct b; [| discriminate].
  destruct (inc a); [discriminate |].
  unfold nbits in *. simpl length. rewrite Nat2Z.inj_succ, Z.pow_succ_r by lia.
  rewrite to_Z_cons, (IH eq_refl). unfold Z.b2z. lia.
Qed.

Lemma inc_of_successor a b :
  nbits a = nbits b -> to_Z a + 1 = to_Z b -> inc a = Some b.
Proof.
  intros Hl Hz. destruct (inc a) as [c |] eqn:E.
  - destruct (inc_spec _ E) as [Hc Hcz]. f_equal.
    apply to_Z_inj; [congruence | lia].
  - apply inc_None in E. pose proof (to_Z_bound b). rewrite <- Hl in *. lia.
Qed.

(** A vector and its successor differ exactly in the bits up to the
    lowest clear bit of the vector. *)
Lemma inc_diff a c :
  inc a = Some c ->
  exists m, (m < nbits a)%nat /\
            forall k, xorb (bit a k) (bit c k) = (k <=? m)%nat.
Proof.
  revert c. induction a as [| b a IH]; intros c H; [discriminate |].
  simpl in H. destruct b.
  - destruct (inc a) as [c' |]; [| discriminate]. injection H as <-.
    destruct (IH c' eq_refl) as [m [Hm Hd]]. exists (S m).
    split; [unfold nbits in *; simpl; lia |].
    intros [| k]; [reflexivity |].
    change (bit (true :: a) (S k)) with (bit a k).
    change (bit (false :: c') (S k)) with (bit c' k).
    now rewrite Hd.
  - injection H as <-. exists 0%nat.
    split; [unfold nbits; simpl; lia |].
    intros [| k]; [reflexivity |].
    change (bit (false :: a) (S k)) with (bit a k).
    change (bit (true :: a) (S k)) with (bit a k).
    apply xorb_nilpotent.
Qed.

Lemma Gray_successor w (a b : Value) :
  nbits a = w -> nbits b = w -> to_Z a + 1 = to_Z b ->
  exists m, (m < w)%nat /\
    xor_ (coding.GrayEncoder_elaborate {| coding.GrayEncoder_width := w |} a)
         (coding.GrayEncoder_elaborate {| coding.GrayEncoder_width := w |} b)
    = onehot w m.
Proof.
  intros Ha Hb Hz.
  assert (Hinc : inc a = Some b) by (apply inc_of_successor; congruence).
  destruct (inc_diff _ Hinc) as [m [Hm Hd]]. rewrite Ha in Hm.
  exists m. split; [exact Hm |].
  apply bits_ext.
  - unfold xor_. rewrite nbits_bitwise, !nbits_GrayEncoder, nbits_onehot.
    simpl. apply Nat.max_id.
  - intros k _. rewrite bit_xor, !bit_GrayEncoder, bit_onehot by assumption.
    simpl coding.GrayEncoder_width.
    destruct (Nat.ltb_spec k w) as [Hk | Hk]; [| reflexivity]. simpl.
    replace (xorb (xorb (bit a k) (bit a (S k)))
                  (xorb (bit b k) (bit b (S k))))
      with (xorb (xorb (bit a k) (bit b k))
                 (xorb (bit a (S k)) (bit b (S k))))
      by (destruct (bit a k), (bit a (S k)), (bit b k), (bit b (S k));
          reflexivity).
    rewrite !Hd.
    destruct (Nat.leb_spec k m), (Nat.leb_spec (S k) m), (Nat.eqb_spec m k);
      simpl; try reflexivity; lia.
Qed.

End Gray.

(** X6.  GrayDecoder applied to the output of GrayEncoder of the same
    width W >= 1 gives back the W-bit input. *)
Theorem X6_GrayDecoder_inverts_GrayEncoder (w : nat) (x : Value) :
  1 <= w -> nbits x = w ->
  coding.GrayDecoder_elaborate
    {| coding.GrayDecoder_width := w |}
    (coding.GrayEncoder_elaborate {| coding.GrayEncoder_width := w |} x)
  = Some x.
Proof.
  intros Hw Hx. destruct w as [| top]; [lia |].
  now apply GrayDecoder_GrayEncoder.
Qed.

(** X6 at width 4 on 0b0110. *)
Lemma X6_Gray_witness :
  1 <= 4 /\ nbits (of_Z 4 6) = 4 /\
  coding.GrayDecoder_elaborate
    {| coding.GrayDecoder_width := 4 |}
    (coding.GrayEncoder_elaborate {| coding.GrayEncoder_width := 4 |}
                                  (of_Z 4 6))
  = Some (of_Z 4 6).
Proof.
  split; [lia | split; [reflexivity |]].
  apply X6_GrayDecoder_inverts_GrayEncoder; [lia | reflexivity].
Defined.

(** X7.  GrayEncoder applied to the output of GrayDecoder of the same
    width gives back the input: with X6, the two are inverse bijections of
    the W-bit vectors.  GrayDecoder of width 0 does not elaborate. *)
Theorem X7_GrayEncoder_inverts_GrayDecoder (w : nat) (x y : Value) :
  nbits x = w ->
  coding.GrayDecoder_elaborate {| coding.GrayDecoder_width := w |} x = Some y ->
  1 <= w /\
  coding.GrayEncoder_elaborate {| coding.GrayEncoder_width := w |} y = x.
Proof.
  intros Hx Hy. destruct w as [| top]; [discriminate |].
  split; [lia |]. now apply GrayEncoder_GrayDecoder with (top := top).
Qed.

(** X7 at width 4 on 0b0101, which decodes to 0b0110. *)
Lemma X7_Gray_witness :
  nbits (of_Z 4 5) = 4 /\
  coding.GrayDecoder_elaborate {| coding.GrayDecoder_width := 4 |} (of_Z 4 5)
  = Some (of_Z 4 6) /\
  coding.GrayEncoder_elaborate {| coding.GrayEncoder_width := 4 |} (of_Z 4 6)
  = of_Z 4 5.
Proof.
  split; [reflexivity | split; [reflexivity |]].
  exact (proj2 (@X7_GrayEncoder_inverts_GrayDecoder
                  4 (of_Z 4 5) (of_Z 4 6) eq_refl eq_refl)).
Defined.

(** X8.  The Gray codes of two W-bit inputs that are consecutive integers
    differ in exactly one bit. *)
Theorem X8_Gray_adjacent_codes_differ_in_one_bit (w : nat) (a b : Value) :
  nbits a = w -> nbits b = w -> (to_Z a + 1 = to_Z b)%Z ->
  popcount
    (xor_ (coding.GrayEncoder_elaborate {| coding.GrayEncoder_width := w |} a)
          (coding.GrayEncoder_elaborate {| coding.GrayEncoder_width := w |} b))
  = 1.
Proof.
  intros Ha Hb Hz. destruct (@Gray_successor w a b Ha Hb Hz) as [m [Hm ->]].
  now apply popcount_onehot_in.
Qed.

(** X8 at width 4 on 7 and 8, whose codes are 0b0100 and 0b1100. *)
Lemma X8_Gray_witness :
  (to_Z (of_Z 4 7) + 1 = to_Z (of_Z 4 8))%Z /\
  popcount
    (xor_ (coding.GrayEncoder_elaborate {| coding.GrayEncoder_width := 4 |}
                                        (of_Z 4 7))
          (coding.GrayEncoder_elaborate {| coding.GrayEncoder_width := 4 |}
                                        (of_Z 4 8)))
  = 1.
Proof.
  split; [reflexivity |].
  apply X8_Gray_adjacent_codes_differ_in_one_bit with (w := 4); reflexivity.
Defined.

(* ================================================================== *)
(** * More on the selectors *)
(* ================================================================== *)

Section SelectorFacts.

Lemma truthy_onehot w k : k < w -> truthy (onehot w k) = true.
Proof.
  intros H. apply truthy_bit. exists k.
  rewrite bit_onehot, Nat.eqb_refl. apply Nat.ltb_lt in H. now rewrite H.
Qed.

Lemma bit_onehot_true w m k : bit (onehot w m) k = true -> k = m /\ m < w.
Proof.
  rewrite bit_onehot. intros H. apply andb_true_iff in H.
  destruct H as [H1 H2]. apply Nat.ltb_lt in H1. apply Nat.eqb_eq in H2.
  subst. auto.
Qed.

Lemma onehot_inj w m k : m < w -> onehot w m = onehot w k -> m = k.
Proof.
  intros Hm H.
  assert (Hb : bit (onehot w k) m = true).
  { rewrite <- H, bit_onehot, Nat.eqb_refl. apply Nat.ltb_lt in Hm.
    now rewrite Hm. }
  now apply bit_onehot_true in Hb.
Qed.

(** A bit granted by the priority selection is a requested bit. *)
Lemma priority_sel_subset v k :
  bit (arbiter._priority_sel v) k = true -> bit v k = true.
Proof.
  rewrite bit_priority_sel. intros H. now apply andb_true_iff in H.
Qed.

(** A bit granted by the rotation is a requested bit. *)
Lemma rrobin_sel_subset (R prev : Value) k :
  nbits prev = nbits R ->
  bit (rotation.rotate R prev) k = true -> bit R k = true.
Proof.
  intros Hw. rewrite rrobin_sel_lowest by exact Hw.
  destruct (lowest (and_ R _)) as [m |] eqn:EA.
  - intros H. apply bit_onehot_true in H. destruct H as [-> _].
    destruct (lowest_Some _ EA) as [Hb _]. rewrite bit_and in Hb.
    now apply andb_true_iff in Hb.
  - destruct (lowest R) as [m |] eqn:ER.
    + intros H. apply bit_onehot_true in H. destruct H as [-> _].
      now destruct (lowest_Some _ ER).
    + now rewrite bit_zeros.
Qed.

(** The rotation grants something exactly when something is requested. *)
Lemma rrobin_sel_truthy (R prev : Value) :
  nbits prev = nbits R ->
  truthy (rotation.rotate R prev) = truthy R.
Proof.
  intros Hw. destruct (truthy R) eqn:ER.
  - apply truthy_bit in ER. destruct ER as [r Hr].
    rewrite rrobin_sel_lowest by exact Hw.
    destruct (lowest (and_ R _)) as [m |] eqn:EA.
    + destruct (lowest_Some _ EA) as [_ [_ Hm]].
      rewrite nbits_above in Hm by exact Hw. now apply truthy_onehot.
    + destruct (lowest R) as [m |] eqn:EL.
      * destruct (lowest_Some _ EL) as [_ [_ Hm]]. now apply truthy_onehot.
      * rewrite (lowest_None _ EL) in Hr. discriminate.
  - apply truthy_false_bit. intros k.
    destruct (bit (rotation.rotate R prev) k) eqn:E; [| reflexivity].
    apply rrobin_sel_subset in E; [| exact Hw].
    rewrite (proj1 (truthy_false_bit R) ER) in E. discriminate.
Qed.

(** The output of a tick on which a round runs. *)
Lemma out_round (self : coding.RoundRobinSelector) inp prev :
  nbits (coding.i inp) = coding.n_reqs self ->
  nbits prev = coding.n_reqs self ->
  coding.enable self inp prev = true ->
  coding.out self inp prev = rotation.rotate (coding.i inp) prev /\
  coding.next self inp prev = rotation.rotate (coding.i inp) prev.
Proof.
  intros HR Hp Hen. unfold coding.out, coding.next.
  rewrite step_eq, Hen. simpl. rewrite assign_id by exact HR.
  now rewrite grant_rrobin_sel.
Qed.

(** The output of a tick on which no round runs. *)
Lemma out_hold (self : coding.RoundRobinSelector) inp prev :
  nbits prev = coding.n_reqs self ->
  coding.enable self inp prev = false ->
  coding.out self inp prev = prev /\ coding.next self inp prev = prev.
Proof.
  intros Hp Hen. unfold coding.out, coding.next.
  rewrite step_eq, Hen. simpl. now rewrite assign_id.
Qed.

Lemma enable_WITHDRAW (self : coding.RoundRobinSelector) inp prev :
  coding.policy self = WITHDRAW ->
  nbits (coding.i inp) = coding.n_reqs self ->
  coding.enable self inp prev = negb (truthy (and_ (coding.i inp) prev)).
Proof.
  intros Hpol HR. unfold coding.enable.
  rewrite Hpol, truthy_not_bool. now rewrite assign_id.
Qed.

Lemma mapM_None (A B : Type) (f : A -> option B) l a :
  In a l -> f a = None -> arbiter.mapM f l = None.
Proof.
  induction l as [| x l IH]; intros Hin Ha; [contradiction |].
  simpl. destruct Hin as [-> | Hin].
  - now rewrite Ha.
  - rewrite (IH Hin Ha). now destruct (f x).
Qed.

End SelectorFacts.

(** X9.  PrioritySelector of width W on a W-bit input: the output is
    nonzero exactly when the input is; every set output bit is a set input
    bit; and selecting again changes nothing. *)
Theorem X9_PrioritySelector_output_within_input
        (self : coding.PrioritySelector) (i : Value) :
  nbits i = coding.width self ->
  truthy (coding.PrioritySelector_o self i) = truthy i /\
  (forall k, bit (coding.PrioritySelector_o self i) k = true ->
             bit i k = true) /\
  coding.PrioritySelector_o self (coding.PrioritySelector_o self i)
  = coding.PrioritySelector_o self i.
Proof.
  intros Hi. rewrite !PrioritySelector_o_eq.
  rewrite (assign_id i Hi).
  rewrite assign_id by (now rewrite nbits_priority_sel).
  split; [| split].
  - rewrite priority_sel_lowest. destruct (lowest i) as [m |] eqn:E.
    + destruct (lowest_Some _ E) as [Hb [_ Hm]].
      rewrite truthy_onehot by exact Hm. symmetry.
      apply truthy_bit. now exists m.
    + rewrite truthy_zeros. symmetry. apply truthy_false_bit.
      now apply lowest_None.
  - intros k. apply priority_sel_subset.
  - rewrite (priority_sel_lowest (arbiter._priority_sel i)).
    rewrite nbits_priority_sel. rewrite (priority_sel_lowest i).
    destruct (lowest i) as [m |] eqn:E.
    + destruct (lowest_Some _ E) as [_ [_ Hm]].
      now rewrite lowest_onehot.
    + now rewrite lowest_zeros.
Qed.

(** X9 at width 4 on 0b0110. *)
Lemma X9_PrioritySelector_witness :
  nbits (of_Z 4 6) = 4 /\
  truthy (coding.PrioritySelector_o {| coding.width := 4 |} (of_Z 4 6))
  = truthy (of_Z 4 6).
Proof.
  split; [reflexivity |].
  exact (proj1 (@X9_PrioritySelector_output_within_input
                  {| coding.width := 4 |} (of_Z 4 6) eq_refl)).
Defined.

(** X10.  RoundRobinSelector, under either policy, on a tick on which a
    round of arbitration runs, with an n-bit request vector and an n-bit
    lastGrant: every granted bit is a requested bit, something is granted
    exactly when something is requested, and the grant is what lastGrant
    holds at the next tick. *)
Theorem X10_round_grants_a_requester
        (self : coding.RoundRobinSelector) (inp : coding.Inputs)
        (prev : Value) :
  nbits (coding.i inp) = coding.n_reqs self ->
  nbits prev = coding.n_reqs self ->
  coding.enable self inp prev = true ->
  (forall k, bit (coding.out self inp prev) k = true ->
             bit (coding.i inp) k = true) /\
  truthy (coding.out self inp prev) = truthy (coding.i inp) /\
  coding.next self inp prev = coding.out self inp prev.
Proof.
  intros HR Hp Hen. destruct (@out_round self inp prev HR Hp Hen) as [-> ->].
  split; [| split; [| reflexivity]].
  - intros k. apply rrobin_sel_subset. congruence.
  - apply rrobin_sel_truthy. congruence.
Qed.

(** X10 at width 2 under CE from reset with requests 0b10. *)
Lemma X10_round_witness :
  let self := {| coding.n_reqs := 2; coding.policy := CE |} in
  let inp := {| coding.i := of_Z 2 2; coding.en := true |} in
  coding.enable self inp (zeros 2) = true /\
  truthy (coding.out self inp (zeros 2)) = truthy (coding.i inp).
Proof.
  split; [reflexivity |].
  exact (proj1 (proj2 (@X10_round_grants_a_requester
                         {| coding.n_reqs := 2; coding.policy := CE |}
                         {| coding.i := of_Z 2 2; coding.en := true |}
                         (zeros 2) eq_refl eq_refl eq_refl))).
Defined.

(** X11.  RoundRobinSelector with policy WITHDRAW, at every tick, with an
    n-bit request vector and a one-hot-or-zero lastGrant: every granted
    bit is a requested bit; in particular with no request the output is
    zero. *)
Theorem X11_WITHDRAW_grant_is_requested
        (self : coding.RoundRobinSelector) (inp : coding.Inputs)
        (prev : Value) :
  coding.policy self = WITHDRAW ->
  nbits (coding.i inp) = coding.n_reqs self ->
  at_most_one_hot (coding.n_reqs self) prev ->
  (forall k, bit (coding.out self inp prev) k = true ->
             bit (coding.i inp) k = true) /\
  (truthy (coding.i inp) = false ->
   coding.out self inp prev = zeros (coding.n_reqs self)).
Proof.
  intros Hpol HR Hprev. pose proof (at_most_one_hot_nbits Hprev) as Hp.
  assert (Hsub : forall k, bit (coding.out self inp prev) k = true ->
                           bit (coding.i inp) k = true).
  { destruct (coding.enable self inp prev) eqn:Hen.
    - destruct (@out_round self inp prev HR Hp Hen) as [-> _].
      intros k. apply rrobin_sel_subset. congruence.
    - destruct (@out_hold self inp prev Hp Hen) as [-> _].
      rewrite enable_WITHDRAW in Hen by assumption.
      apply negb_false_iff, truthy_bit in Hen. destruct Hen as [j Hj].
      rewrite bit_and in Hj. apply andb_true_iff in Hj.
      destruct Hj as [HRj Hpj]. intros k Hk.
      destruct Hprev as [-> | [m [Hm ->]]].
      + rewrite bit_zeros in Hk. discriminate.
      + apply bit_onehot_true in Hk, Hpj.
        destruct Hk as [-> _], Hpj as [-> _]. exact HRj. }
  split; [exact Hsub |].
  intros Hz. pose proof (out_at_most_one_hot self inp Hprev) as Ho.
  destruct Ho as [Ho | [m [Hm Ho]]]; [exact Ho |].
  exfalso.
  assert (Hb : bit (coding.out self inp prev) m = true).
  { rewrite Ho, bit_onehot, Nat.eqb_refl. apply Nat.ltb_lt in Hm.
    now rewrite Hm. }
  apply Hsub in Hb. rewrite (proj1 (truthy_false_bit _) Hz) in Hb.
  discriminate.
Qed.

(** X11 at width 2: lastGrant 0b01 and no request give output zero. *)
Lemma X11_WITHDRAW_witness :
  let self := {| coding.n_reqs := 2; coding.policy := WITHDRAW |} in
  let inp := {| coding.i := of_Z 2 0; coding.en := false |} in
  at_most_one_hot 2 (onehot 2 0) /\
  coding.out self inp (onehot 2 0) = zeros 2.
Proof.
  assert (H : at_most_one_hot 2 (onehot 2 0)).
  { right. exists 0. split; [lia | reflexivity]. }
  split; [exact H |].
  apply (@X11_WITHDRAW_grant_is_requested
           {| coding.n_reqs := 2; coding.policy := WITHDRAW |}
           {| coding.i := of_Z 2 0; coding.en := false |}
           (onehot 2 0) eq_refl eq_refl H).
  reflexivity.
Defined.

(** X12.  RoundRobinSelector on a tick on which a round runs, with
    lastGrant one-hot at index k: when some other requester asserts, the
    grant does not go to k again; when k is the only requester, k is
    granted again. *)
Theorem X12_regrant_only_without_other_requests
        (self : coding.RoundRobinSelector) (inp : coding.Inputs) (k : nat) :
  nbits (coding.i inp) = coding.n_reqs self ->
  k < coding.n_reqs self ->
  coding.enable self inp (onehot (coding.n_reqs self) k) = true ->
  ((exists j, j <> k /\ bit (coding.i inp) j = true) ->
   coding.out self inp (onehot (coding.n_reqs self) k)
   <> onehot (coding.n_reqs self) k) /\
  (bit (coding.i inp) k = true ->
   (forall j, j <> k -> bit (coding.i inp) j = false) ->
   coding.out self inp (onehot (coding.n_reqs self) k)
   = onehot (coding.n_reqs self) k).
Proof.
  intros HR Hk Hen.
  destruct (@out_round self inp (onehot (coding.n_reqs self) k) HR
                       (nbits_onehot _ _) Hen) as [-> _].
  set (R := coding.i inp) in *. rewrite <- HR in *. split.
  - intros [j [Hjk Hj]].
    rewrite rrobin_sel_lowest by apply nbits_onehot.
    destruct (lowest (and_ R _)) as [m |] eqn:EA.
    + destruct (lowest_Some _ EA) as [Hb [_ Hm]].
      rewrite nbits_above in Hm by apply nbits_onehot.
      rewrite bit_and, bit_smear_onehot in Hb by exact Hk.
      apply andb_true_iff in Hb. destruct Hb as [_ Hb].
      apply andb_true_iff in Hb. destruct Hb as [_ Hb].
      apply Nat.ltb_lt in Hb. intros Heq.
      apply onehot_inj in Heq; [lia | exact Hm].
    + assert (Hjlt : j < k).
      { destruct (Nat.lt_trichotomy j k) as [H | [H | H]];
          [exact H | contradiction |].
        pose proof (lowest_None _ EA j) as Hb.
        rewrite bit_and, bit_smear_onehot, Hj in Hb by exact Hk.
        pose proof (bit_in_range _ _ Hj) as Hjn.
        apply Nat.ltb_lt in Hjn, H. rewrite Hjn, H in Hb. discriminate. }
      destruct (lowest R) as [m |] eqn:EL.
      * destruct (lowest_Some _ EL) as [_ [Hlow Hm]]. intros Heq.
        apply onehot_inj in Heq; [| exact Hm]. subst m.
        rewrite (Hlow j Hjlt) in Hj. discriminate.
      * rewrite (lowest_None _ EL) in Hj. discriminate.
  - intros Hbk Honly. apply rrobin_wrap; auto.
    + intros j Hj. apply Honly. lia.
    + intros j Hj. apply Honly. lia.
Qed.

(** X12 at width 2 under CE: after granting requester 0, with both
    requesting, the grant is not 0b01; with only requester 0 requesting,
    it is 0b01 again. *)
Lemma X12_regrant_witness :
  let self := {| coding.n_reqs := 2; coding.policy := CE |} in
  coding.out self {| coding.i := of_Z 2 3; coding.en := true |} (onehot 2 0)
  <> onehot 2 0 /\
  coding.out self {| coding.i := of_Z 2 1; coding.en := true |} (onehot 2 0)
  = onehot 2 0.
Proof.
  split.
  - apply (@X12_regrant_only_without_other_requests
             {| coding.n_reqs := 2; coding.policy := CE |}
             {| coding.i := of_Z 2 3; coding.en := true |} 0
             eq_refl ltac:(simpl; lia) eq_refl).
    exists 1. split; [lia | reflexivity].
  - apply (@X12_regrant_only_without_other_requests
             {| coding.n_reqs := 2; coding.policy := CE |}
             {| coding.i := of_Z 2 1; coding.en := true |} 0
             eq_refl ltac:(simpl; lia) eq_refl); [reflexivity |].
    intros [| [| j]] Hj; [lia | reflexivity | destruct j; reflexivity].
Defined.

(** X13.  RoundRobinEncoder at a tick with a one-hot-or-zero lastGrant in
    its selector: the flag n is high exactly when the selector grants
    nothing, and the output is then 0; when the selector grants requester
    k, the output is k and n is low.  The selector's register advances as
    in RoundRobinSelector. *)
Theorem X13_RoundRobinEncoder_grant_index
        (robin : coding.RoundRobinSelector) (inp : coding.Inputs)
        (prev : Value) :
  at_most_one_hot (coding.n_reqs robin) prev ->
  snd (fst (coding.RoundRobinEncoder_step robin inp prev))
  = negb (truthy (coding.out robin inp prev)) /\
  (forall k, k < coding.n_reqs robin ->
             coding.out robin inp prev = onehot (coding.n_reqs robin) k ->
             fst (coding.RoundRobinEncoder_step robin inp prev)
             = (Z.of_nat k, false)) /\
  (coding.out robin inp prev = zeros (coding.n_reqs robin) ->
   fst (coding.RoundRobinEncoder_step robin inp prev) = (0%Z, true)) /\
  snd (coding.RoundRobinEncoder_step robin inp prev)
  = coding.next robin inp prev.
Proof.
  intros Hprev. unfold coding.RoundRobinEncoder_step. cbn [fst snd].
  assert (H1 : forall k, k < coding.n_reqs robin ->
             coding.out robin inp prev = onehot (coding.n_reqs robin) k ->
             coding.Encoder_elaborate
               {| coding.Encoder_width := coding.n_reqs robin |}
               (coding.out robin inp prev) = (Z.of_nat k, false)).
  { intros k Hk ->. now apply Encoder_onehot. }
  assert (H2 : coding.out robin inp prev = zeros (coding.n_reqs robin) ->
             coding.Encoder_elaborate
               {| coding.Encoder_width := coding.n_reqs robin |}
               (coding.out robin inp prev) = (0%Z, true)).
  { intros ->. apply Encoder_other; [apply nbits_zeros |].
    rewrite popcount_zeros. discriminate. }
  split; [| split; [exact H1 | split; [exact H2 | reflexivity]]].
  destruct (out_at_most_one_hot robin inp Hprev) as [Ho | [k [Hk Ho]]].
  - rewrite (H2 Ho), Ho, truthy_zeros. reflexivity.
  - rewrite (H1 k Hk Ho), Ho, truthy_onehot by exact Hk. reflexivity.
Qed.

(** X13 at width 4 under CE from reset with requests 0b1100: index 2. *)
Lemma X13_RoundRobinEncoder_witness :
  let robin := {| coding.n_reqs := 4; coding.policy := CE |} in
  let inp := {| coding.i := of_Z 4 12; coding.en := true |} in
  at_most_one_hot 4 (zeros 4) /\
  fst (coding.RoundRobinEncoder_step robin inp (zeros 4)) = (2%Z, false).
Proof.
  assert (H : at_most_one_hot 4 (zeros 4)) by now left.
  split; [exact H |].
  destruct (@X13_RoundRobinEncoder_grant_index
              {| coding.n_reqs := 4; coding.policy := CE |}
              {| coding.i := of_Z 4 12; coding.en := true |}
              (zeros 4) H) as [_ [Hk _]].
  apply (Hk 2); [simpl; lia | reflexivity].
Defined.

(** X15.  RoundRobinSelector with policy WITHDRAW, once requester k is
    granted: over any stretch of ticks at each of which k still asserts
    its n-bit request, whatever the other requesters do, every output is
    one-hot at k and lastGrant stays one-hot at k. *)
Theorem X15_WITHDRAW_grant_is_kept
        (self : coding.RoundRobinSelector) (k : nat)
        (inps : list coding.Inputs) :
  coding.policy self = WITHDRAW ->
  k < coding.n_reqs self ->
  Forall (fun x => nbits (coding.i x) = coding.n_reqs self /\
                   bit (coding.i x) k = true) inps ->
  Forall (fun o => o = onehot (coding.n_reqs self) k)
         (coding.run self (onehot (coding.n_reqs self) k) inps) /\
  coding.state_after self (onehot (coding.n_reqs self) k) inps
  = onehot (coding.n_reqs self) k.
Proof.
  intros Hpol Hk Hall. induction Hall as [| x xs [HR Hb] _ IH]; simpl.
  - split; [constructor | reflexivity].
  - assert (Hen : coding.enable self x (onehot (coding.n_reqs self) k)
                  = false).
    { rewrite enable_WITHDRAW by assumption. apply negb_false_iff.
      apply truthy_bit. exists k.
      rewrite bit_and, Hb, bit_onehot, Nat.eqb_refl.
      apply Nat.ltb_lt in Hk. now rewrite Hk. }
    destruct (@out_hold self x (onehot (coding.n_reqs self) k)
                        (nbits_onehot _ _) Hen) as [-> ->].
    destruct IH as [IH1 IH2]. split; [now constructor | exact IH2].
Qed.

(** X15 at width 2: requester 0 keeps the grant while requester 1 comes
    and goes. *)
Lemma X15_WITHDRAW_witness :
  let self := {| coding.n_reqs := 2; coding.policy := WITHDRAW |} in
  let inps := [ {| coding.i := of_Z 2 3; coding.en := false |};
                {| coding.i := of_Z 2 1; coding.en := false |} ] in
  coding.state_after self (onehot 2 0) inps = onehot 2 0.
Proof.
  apply (@X15_WITHDRAW_grant_is_kept
           {| coding.n_reqs := 2; coding.policy := WITHDRAW |} 0
           [ {| coding.i := of_Z 2 3; coding.en := false |};
             {| coding.i := of_Z 2 1; coding.en := false |} ]
           eq_refl ltac:(simpl; lia)).
  repeat constructor.
Defined.

(* ================================================================== *)
(** * What [_bitmap_mux] builds *)
(* ================================================================== *)

Section BitmapMux.

Lemma mapM_Some_map (A B : Type) (f : A -> option B) (g : A -> B) l :
  (forall a, In a l -> f a = Some (g a)) ->
  arbiter.mapM f l = Some (map g l).
Proof.
  induction l as [| a l IH]; intros H; simpl; [reflexivity |].
  rewrite (H a (or_introl eq_refl)), IH; [reflexivity |].
  intros a' Ha'. apply H. now right.
Qed.

Lemma index_bit (v : Value) k : k < nbits v -> index v k = Some [bit v k].
Proof.
  intros H. unfold index, bit.
  now rewrite (nth_error_nth' v false H).
Qed.

(** The bits [d[0], ..., d[s-1]] gathered one by one are the slice
    [d[:s]]. *)
Lemma gathered_bits (d : Value) s :
  s <= nbits d -> map (bit d) (seq 0 s) = slice_to d s.
Proof.
  intros H. apply bits_ext.
  - unfold nbits, slice_to in *. rewrite length_map, length_seq, length_firstn.
    lia.
  - intros k _. rewrite bit_map_seq. unfold slice_to. rewrite bit_firstn.
    now destruct (k <? s).
Qed.

Lemma length_concat_uniform (A B : Type) (f : A -> list B) s l :
  (forall a, length (f a) = s) ->
  length (concat (map f l)) = length l * s.
Proof.
  intros H. induction l as [| a l IH]; simpl; [reflexivity |].
  now rewrite length_app, H, IH.
Qed.

Lemma bitmap_mux_eq (sel : Value) (data : list Value) width n :
  Forall (fun d => nbits d = n) data ->
  width <= length data -> nbits sel <= n ->
  arbiter._bitmap_mux sel data width =
  Some (Cat (map (fun i => and_ sel (bool_ (slice_to (nth i data [])
                                                     (nbits sel))))
                 (seq 0 width))).
Proof.
  intros HF Hw Hs. unfold arbiter._bitmap_mux.
  rewrite (@mapM_Some_map nat Value _
             (fun i => and_ sel (bool_ (slice_to (nth i data [])
                                                 (nbits sel))))
             (seq 0 width)); [reflexivity |].
  intros i Hi. apply in_seq in Hi.
  assert (Hd : nth_error data i = Some (nth i data []))
    by (apply nth_error_nth'; lia).
  assert (Hn : nbits (nth i data []) = n).
  { rewrite Forall_forall in HF. apply HF. eapply nth_error_In. exact Hd. }
  rewrite Hd.
  rewrite (@mapM_Some_map nat Value _
             (fun j => [bit (nth i data []) j]) (seq 0 (nbits sel))).
  - simpl. unfold Cat at 1. rewrite concat_singletons.
    rewrite gathered_bits by lia. reflexivity.
  - intros j Hj. apply in_seq in Hj. simpl. apply index_bit. lia.
Qed.

Lemma nbits_bitmap_mux_items (sel : Value) (data : list Value) width :
  1 <= nbits sel ->
  nbits (Cat (map (fun i => and_ sel (bool_ (slice_to (nth i data [])
                                                      (nbits sel))))
                  (seq 0 width)))
  = width * nbits sel.
Proof.
  intros Hs. unfold nbits at 1, Cat.
  rewrite length_concat_uniform with (s := nbits sel);
    [now rewrite length_seq |].
  intros i. fold (nbits (and_ sel (bool_ (slice_to (nth i data [])
                                                   (nbits sel))))).
  unfold and_. rewrite nbits_bitwise. unfold bool_, nbits at 2. simpl. lia.
Qed.

Lemma bitmap_mux_None (sel : Value) (data : list Value) width n :
  1 <= nbits sel -> 1 <= width ->
  Forall (fun d => nbits d = n) data ->
  length data < width \/ n < nbits sel ->
  arbiter._bitmap_mux sel data width = None.
Proof.
  intros Hs Hw HF Hbad. unfold arbiter._bitmap_mux.
  assert (Hrow : exists k, k < width /\
             arbiter.mapM
               (fun j => arbiter.obind (nth_error data k)
                                       (fun d => index d j))
               (seq 0 (nbits sel)) = None).
  { destruct Hbad as [Hlen | Hn].
    - exists (length data). split; [exact Hlen |].
      apply mapM_None with (a := 0); [apply in_seq; lia |].
      rewrite (proj2 (nth_error_None data (length data))) by lia.
      reflexivity.
    - exists 0. split; [lia |].
      destruct (nth_error data 0) as [d |] eqn:Ed.
      + assert (Hd : nbits d = n).
        { rewrite Forall_forall in HF. apply HF.
          eapply nth_error_In. exact Ed. }
        apply mapM_None with (a := n); [apply in_seq; lia |].
        simpl. unfold index.
        rewrite (proj2 (nth_error_None d n)) by (unfold nbits in Hd; lia).
        reflexivity.
      + apply mapM_None with (a := 0); [apply in_seq; lia | reflexivity]. }
  destruct Hrow as [k [Hk Hnone]].
  rewrite (@mapM_None nat Value _ (seq 0 width) k);
    [reflexivity | apply in_seq; lia |].
  now rewrite Hnone.
Qed.

End BitmapMux.

(** X16.  [_bitmap_mux(sel, data, width)] with a nonempty [sel], a
    positive [width] and a list [data] of n-bit vectors.  When [data] has
    at least [width] entries and [sel] has at most n bits, it returns the
    concatenation, for i below [width], of [sel] AND the one bit that is
    the OR of [data[i][0]], ..., [data[i][len(sel)-1]]: [width * len(sel)]
    bits.  Otherwise [data[i]] or [data[i][j]] is indexed out of range
    and nothing is returned. *)
Theorem X16_bitmap_mux_index_ranges
        (sel : Value) (data : list Value) (width n : nat) :
  1 <= nbits sel -> 1 <= width ->
  Forall (fun d => nbits d = n) data ->
  (width <= length data /\ nbits sel <= n ->
   arbiter._bitmap_mux sel data width =
   Some (Cat (map (fun i => and_ sel (bool_ (slice_to (nth i data [])
                                                      (nbits sel))))
                  (seq 0 width))) /\
   nbits (Cat (map (fun i => and_ sel (bool_ (slice_to (nth i data [])
                                                       (nbits sel))))
                   (seq 0 width)))
   = width * nbits sel) /\
  (length data < width \/ n < nbits sel ->
   arbiter._bitmap_mux sel data width = None).
Proof.
  intros Hs Hw HF. split.
  - intros [H1 H2]. split.
    + now apply bitmap_mux_eq with (n := n).
    + now apply nbits_bitmap_mux_items.
  - now apply bitmap_mux_None.
Qed.

(** X16 with two 2-bit rows: a 2-bit selector gives four bits, a 3-bit
    selector runs out of range. *)
Lemma X16_bitmap_mux_witness :
  arbiter._bitmap_mux (of_Z 2 1) [of_Z 2 2; of_Z 2 0] 2 = Some (of_Z 4 1) /\
  arbiter._bitmap_mux (of_Z 3 1) [of_Z 2 2; of_Z 2 0] 2 = None.
Proof.
  assert (HF : Forall (fun d => nbits d = 2) [of_Z 2 2; of_Z 2 0])
    by (repeat constructor).
  split.
  - rewrite (proj1 (proj1 (@X16_bitmap_mux_index_ranges
                             (of_Z 2 1) [of_Z 2 2; of_Z 2 0] 2 2
                             ltac:(simpl; lia) ltac:(lia) HF)
                          ltac:(simpl; lia))).
    reflexivity.
  - apply (proj2 (@X16_bitmap_mux_index_ranges
                    (of_Z 3 1) [of_Z 2 2; of_Z 2 0] 2 2
                    ltac:(simpl; lia) ltac:(lia) HF)).
    right. simpl. lia.
Defined.
